(** * Amazon AMI management post-processor: retention of the newest images

    A shallow embedding of [plugin/post-processor.go] and the properties of
    its retention algorithm: list the images carrying the management tag,
    order them newest first with the hand-written [sort], keep the first
    [KeepReleases] of them, deregister the others and delete their
    snapshots, stopping at the first provider error.

    Conventions of the embedding.
    - Go [int] values are [Z]. The only arithmetic done on them is
      [len-1], [m-1], [n++] and [m--] inside [0 .. len], so no wrap-around
      can occur.
    - A field of pointer type ([*string], [*ec2.EbsBlockDevice]) is an
      [option]; dereferencing [None] is a run-time panic. Elements of the
      slices returned by the SDK are taken non-nil.
    - The provider is reached through the interface [ec2iface.EC2API]; it is
      a type class over the state of the connection, so that every theorem
      holds for every implementation (the real service, a test double).
    - Everything observable is recorded, in order, in a list of [Event]s:
      log lines, user-interface messages and provider calls with their
      results. *)

From Stdlib Require Import ZArith List String Ascii Bool Lia Permutation Sorted.
From Equations Require Import Equations.
From stdpp Require Import base list.

Import ListNotations.
Local Open Scope string_scope.
Local Open Scope list_scope.
Local Open Scope Z_scope.

Set Default Goal Selector "!".

(** Go's [error] values are only passed around by this program; the message
    stands for the value. *)
Definition error : Type := string.

(** ** Run-time panics *)

(** The result of evaluating Go code that has no [return] of its own:
    a value, or a run-time panic. *)
Inductive Outcome (A : Type) : Type :=
| Done (a : A)
| Panicked (msg : string).
Arguments Done {A} a.
Arguments Panicked {A} msg.

Definition nil_dereference : string :=
  "invalid memory address or nil pointer dereference".
Definition index_out_of_range : string := "index out of range".

(** [*p] *)
Definition deref {A : Type} (p : option A) : Outcome A :=
  match p with
  | Some a => Done a
  | None => Panicked nil_dereference
  end.

(** [s[i]] on a slice *)
Definition index {A : Type} (s : list A) (i : Z) : Outcome A :=
  if (0 <=? i) && (i <? Z.of_nat (length s)) then
    match s !! Z.to_nat i with
    | Some a => Done a
    | None => Panicked index_out_of_range
    end
  else Panicked index_out_of_range.

(** [s[i] = x] on a slice *)
Definition store {A : Type} (s : list A) (i : Z) (x : A) : Outcome (list A) :=
  if (0 <=? i) && (i <? Z.of_nat (length s)) then Done (<[Z.to_nat i := x]> s)
  else Panicked index_out_of_range.

(** ** Package [time] *)

Module time.

(** A [Time] without monotonic reading, as [time.Parse] returns it:
    seconds elapsed since January 1, year 1, 00:00:00 UTC, and the
    nanoseconds within that second. *)
Record Time : Type := mkTime { sec : Z; nsec : Z }.

(** [Time{}], the zero value: January 1, year 1, 00:00:00.000000000 UTC. *)
Definition zero : Time := {| sec := 0; nsec := 0 |}.

(** [t.After(u)]:
    [ts > us || ts == us && t.nsec() > u.nsec()] *)
Definition After (t u : Time) : bool :=
  (sec t >? sec u) || ((sec t =? sec u) && (nsec t >? nsec u)).

(** The part of the package the program calls. [Parse] returns the zero
    [Time] together with every error. *)
Class API : Type := {
  Parse : string -> string -> Time * option error;
  Parse_error_zero :
    forall layout value t e, Parse layout value = (t, Some e) -> t = zero
}.

End time.

(** ** The hand-written [sort] *)

Section Sort.

(** The slice the two closures capture. *)
Context {Slice : Type}.
Variable lessFunc : Z -> Z -> Slice -> Outcome bool.
Variable swapFunc : Z -> Z -> Slice -> Outcome Slice.

(** The body of the inner loop:
    [if !lessFunc(m-1, m) { swapFunc(m-1, m) }] *)
Definition sort_body (m : Z) (s : Slice) : Outcome Slice :=
  match lessFunc (m - 1) m s with
  | Panicked msg => Panicked msg
  | Done true => Done s
  | Done false => swapFunc (m - 1) m s
  end.

(** [for m := ...; m > n; m-- { body }], entered with the current [m]. *)
Equations sort_inner (n m : Z) (s : Slice) : Outcome Slice
  by wf (Z.to_nat (m - n)) lt :=
  sort_inner n m s with Z_gt_dec m n := {
    | left _ with sort_body m s := {
        | Panicked msg => Panicked msg
        | Done s' => sort_inner n (m - 1) s' }
    | right _ => Done s }.
Next Obligation. lia. Qed.

(** [for n := ...; n < len-1; n++ { for m := len - 1; m > n; m-- {..} }],
    entered with the current [n]. *)
Equations sort_outer (len n : Z) (s : Slice) : Outcome Slice
  by wf (Z.to_nat (len - 1 - n)) lt :=
  sort_outer len n s with Z_lt_dec n (len - 1) := {
    | left _ with sort_inner n (len - 1) s := {
        | Panicked msg => Panicked msg
        | Done s' => sort_outer len (n + 1) s' }
    | right _ => Done s }.
Next Obligation. lia. Qed.

(** [func sort(len int, lessFunc func(i, j int) bool, swapFunc func(i, j int)) error]:
    the final slice together with the returned [error], which is [nil]. *)
Definition sort (len : Z) (s : Slice) : Outcome (option error * Slice) :=
  match sort_outer len 0 s with
  | Panicked msg => Panicked msg
  | Done s' => Done (None, s')
  end.

End Sort.

(** ** Package [ec2]: the records the program reads *)

Module ec2.

(** [ec2.EbsBlockDevice]; only [SnapshotId *string] is read. *)
Record EbsBlockDevice : Type := { SnapshotId : option string }.

(** [ec2.BlockDeviceMapping]; [Ebs *EbsBlockDevice] is [nil] for an
    ephemeral (instance store) device. *)
Record BlockDeviceMapping : Type := { Ebs : option EbsBlockDevice }.

(** [ec2.Image]; the three fields the program reads. *)
Record Image : Type := {
  ImageId : option string;
  CreationDate : option string;
  BlockDeviceMappings : list BlockDeviceMapping
}.

(** [ec2.Filter] and [ec2.DescribeImagesInput] as the program builds
    them, and [ec2.DescribeImagesOutput]. *)
Record Filter : Type := { Name : string; Values : list string }.
Record DescribeImagesInput : Type := { Filters : list Filter }.
Record DescribeImagesOutput : Type := { Images : list Image }.

End ec2.

(** ** The interface [ec2iface.EC2API] *)

Module ec2iface.

(** The three methods the program calls, on a connection whose state is
    [Conn]. A call answers and leaves the connection in a new state.
    [DescribeImages] answers with an output or with an error;
    [DeregisterImage] and [DeleteSnapshot] are given the identifier held
    by their input (the program has dereferenced it before the call) and
    their output is ignored by the program: only the error is kept. *)
Class EC2API (Conn : Type) : Type := {
  DescribeImages :
    ec2.DescribeImagesInput -> Conn -> (ec2.DescribeImagesOutput + error) * Conn;
  DeregisterImage : string -> Conn -> option error * Conn;
  DeleteSnapshot : string -> Conn -> option error * Conn
}.

End ec2iface.

(** ** What a run lets the outside see *)

Inductive Event : Type :=
| LogLine (line : string)
    (** [log.Println], [log.Printf] *)
| UiMessage (msg : string)
    (** [ui.Message] *)
| CallDescribeImages (input : ec2.DescribeImagesInput) (err : option error)
| CallDeregisterImage (imageId : string) (err : option error)
| CallDeleteSnapshot (snapshotId : string) (err : option error).

(** ** The plugin *)

(** [Config]: the fields [PostProcess] reads. *)
Record Config : Type := {
  Identifier : string;
  KeepReleases : Z;
  AccessKey : string;
  SecretKey : string;
  Region : string
}.

(** [PostProcessor]; [ec2conn] is [nil] unless a connection was injected. *)
Record PostProcessor (Conn : Type) : Type := {
  ec2conn : option Conn;
  config : Config
}.
Arguments ec2conn {Conn} p.
Arguments config {Conn} p.

Section Plugin.

Context {Conn : Type} `{!ec2iface.EC2API Conn} `{!time.API}.

(** [packer.Artifact]: opaque to the program. *)
Context {Artifact : Type}.

(** Lines 62 to 78: the connection built when none was injected, from the
    region, the access key and the secret key of the configuration. *)
Variable newConn : string -> string -> string -> Conn.

(** What [PostProcess] returns: [(packer.Artifact, bool, error)]. *)
Definition Result : Type := option Artifact * bool * option error.

(** How a statement ends: control goes on, a [return] was executed, or the
    program panicked. *)
Inductive Flow (A : Type) : Type :=
| Next (a : A)
| Return (r : Result)
| Panic (msg : string).
Arguments Next {A} a.
Arguments Return {A} r.
Arguments Panic {A} msg.

(** A statement runs on a connection and yields how it ended, the new
    state of the connection and the events it produced, oldest first. *)
Definition M (A : Type) : Type := Conn -> Flow A * Conn * list Event.

Definition ret {A : Type} (a : A) : M A := fun c => (Next a, c, []).

Definition bind {A B : Type} (m : M A) (f : A -> M B) : M B :=
  fun c =>
    match m c with
    | (Next a, c1, t1) =>
        match f a c1 with
        | (fl, c2, t2) => (fl, c2, t1 ++ t2)
        end
    | (Return r, c1, t1) => (Return r, c1, t1)
    | (Panic msg, c1, t1) => (Panic msg, c1, t1)
    end.

Notation "x <- m ;; k" := (bind m (fun x => k))
  (at level 100, m at next level, right associativity).
Notation "m ;;; k" := (bind m (fun _ => k))
  (at level 100, right associativity).

Definition return_ {A : Type} (r : Result) : M A := fun c => (Return r, c, []).
Definition emit (e : Event) : M unit := fun c => (Next tt, c, [e]).
Definition lift {A : Type} (o : Outcome A) : M A :=
  fun c =>
    match o with
    | Done a => (Next a, c, [])
    | Panicked msg => (Panic msg, c, [])
    end.

Definition log_Println (line : string) : M unit := emit (LogLine line).
Definition ui_Message (msg : string) : M unit := emit (UiMessage msg).

Definition call_DescribeImages (input : ec2.DescribeImagesInput)
  : M (ec2.DescribeImagesOutput + error) :=
  fun c =>
    match ec2iface.DescribeImages input c with
    | (inl out, c') => (Next (inl out), c', [CallDescribeImages input None])
    | (inr e, c') => (Next (inr e), c', [CallDescribeImages input (Some e)])
    end.

Definition call_DeregisterImage (imageId : string) : M (option error) :=
  fun c =>
    match ec2iface.DeregisterImage imageId c with
    | (err, c') => (Next err, c', [CallDeregisterImage imageId err])
    end.

Definition call_DeleteSnapshot (snapshotId : string) : M (option error) :=
  fun c =>
    match ec2iface.DeleteSnapshot snapshotId c with
    | (err, c') => (Next err, c', [CallDeleteSnapshot snapshotId err])
    end.

(** *** Ordering the listing *)

Definition layout : string := "2006-01-02T15:04:05.000Z".

(** [iTime, _ := time.Parse(layout, *output.Images[i].CreationDate)] *)
Definition parsedCreationDate (images : list ec2.Image) (i : Z) : Outcome time.Time :=
  match index images i with
  | Panicked msg => Panicked msg
  | Done image =>
      match deref (ec2.CreationDate image) with
      | Panicked msg => Panicked msg
      | Done value => Done (fst (time.Parse layout value))
      end
  end.

(** The first closure given to [sort]. *)
Definition lessFunc (i j : Z) (images : list ec2.Image) : Outcome bool :=
  match parsedCreationDate images i with
  | Panicked msg => Panicked msg
  | Done iTime =>
      match parsedCreationDate images j with
      | Panicked msg => Panicked msg
      | Done jTime => Done (time.After iTime jTime)
      end
  end.

(** The second closure:
    [output.Images[i], output.Images[j] = output.Images[j], output.Images[i]] *)
Definition swapFunc (i j : Z) (images : list ec2.Image) : Outcome (list ec2.Image) :=
  match index images j with
  | Panicked msg => Panicked msg
  | Done image_j =>
      match index images i with
      | Panicked msg => Panicked msg
      | Done image_i =>
          match store images i image_j with
          | Panicked msg => Panicked msg
          | Done images' => store images' j image_i
          end
      end
  end.

(** Lines 97 to 107: the call of [sort] on [output.Images]. *)
Definition sortImages (images : list ec2.Image) : Outcome (option error * list ec2.Image) :=
  sort lessFunc swapFunc (Z.of_nat (length images)) images.

(** *** Deleting *)

(** Lines 125 to 136: [for _, device := range image.BlockDeviceMappings]. *)
Fixpoint deleteSnapshots (imageId : string) (devices : list ec2.BlockDeviceMapping)
  : M unit :=
  match devices with
  | [] => ret tt
  | device :: rest =>
      match ec2.Ebs device with
      | None => deleteSnapshots imageId rest
      | Some ebs =>
          snapshotId <- lift (deref (ec2.SnapshotId ebs)) ;;
          log_Println ("Deleting snapshot (" ++ snapshotId ++ ") related to AMI ("
                         ++ imageId ++ ")") ;;;
          err <- call_DeleteSnapshot snapshotId ;;
          match err with
          | Some e => return_ (None, true, Some e)
          | None => deleteSnapshots imageId rest
          end
      end
  end.

(** Lines 114 to 136: the body of the loop over the images, past the test
    on the index. *)
Definition deleteImage (image : ec2.Image) : M unit :=
  imageId <- lift (deref (ec2.ImageId image)) ;;
  ui_Message ("Deleting image: " ++ imageId) ;;;
  log_Println ("Deleting image AMI (" ++ imageId ++ ")") ;;;
  err <- call_DeregisterImage imageId ;;
  match err with
  | Some e => return_ (None, true, Some e)
  | None =>
      log_Println ("Deleting snapshot related to AMI (" ++ imageId ++ ")") ;;;
      deleteSnapshots imageId (ec2.BlockDeviceMappings image)
  end.

(** Lines 110 to 137: [for i, image := range output.Images], entered at
    index [i] with the images from [i] on. *)
Fixpoint deleteImages (keepReleases : Z) (i : Z) (images : list ec2.Image) : M unit :=
  match images with
  | [] => ret tt
  | image :: rest =>
      if i <? keepReleases then deleteImages keepReleases (i + 1) rest
      else (deleteImage image ;;; deleteImages keepReleases (i + 1) rest)
  end.

(** Lines 82 to 91: the input of [DescribeImages], one filter on the
    management tag. *)
Definition describeInput (cfg : Config) : ec2.DescribeImagesInput :=
  {| ec2.Filters :=
       [ {| ec2.Name := "tag:Amazon_AMI_Management_Identifier";
            ec2.Values := [Identifier cfg] |} ] |}.

(** Lines 81 to 139. The body ends with a [return]: control never falls
    off its end, hence [Empty_set]. *)
Definition describeAndDelete (cfg : Config) (artifact : Artifact) : M Empty_set :=
  log_Println "Describing images for generation management" ;;;
  output <- call_DescribeImages (describeInput cfg) ;;
  match output with
  | inr err => return_ (None, true, Some err)
  | inl output =>
      sorted <- lift (sortImages (ec2.Images output)) ;;
      log_Println "Deleting old images..." ;;;
      deleteImages (KeepReleases cfg) 0 (snd sorted) ;;;
      return_ (Some artifact, true, None)
  end.

(** A finished run: what was returned (or the panic), the connection as
    the run left it, and the events in the order they happened. *)
Record Run : Type := {
  returned : Outcome Result;
  connection : Conn;
  events : list Event
}.

(** [func (p *PostProcessor) PostProcess(ui packer.Ui, artifact packer.Artifact)
    (packer.Artifact, bool, error)]. The [ui] is the sink of the
    [UiMessage] events. *)
Definition PostProcess (p : PostProcessor Conn) (artifact : Artifact) : Run :=
  let '(conn, creating) :=
    match ec2conn p with
    | Some conn => (conn, [])
    | None =>
        (newConn (Region (config p)) (AccessKey (config p)) (SecretKey (config p)),
         [LogLine "Creating AWS session"])
    end in
  match describeAndDelete (config p) artifact conn with
  | (fl, conn', tr) =>
      {| returned :=
           match fl with
           | Return r => Done r
           | Panic msg => Panicked msg
           | Next impossible => match impossible with end
           end;
         connection := conn';
         events :=
           LogLine "Running Amazon AMI Management post-processor" :: creating ++ tr |}
  end.

End Plugin.

Arguments Next {Artifact A} a.
Arguments Return {Artifact A} r.
Arguments Panic {Artifact A} msg.
Arguments returned {Conn Artifact} r.
Arguments connection {Conn Artifact} r.
Arguments events {Conn Artifact} r.

(** ** A model of [time.Parse] for the program's layout *)

(** In the layout ["2006-01-02T15:04:05.000Z"] the chunks are the year on
    four digits, the month, day, minute and second on two digits each, the
    hour on one or two digits, and a fractional second of exactly three
    digits (as of Go 1.17, which also takes a comma for the period);
    ["-"], ["T"], [":"] and the final ["Z"] are literal text. The steps
    below are those of [Parse] in [time/format.go] for these chunks; any
    other layout is outside the model and answers with an error. *)
Module GoTime.

Definition isDigit (c : ascii) : bool :=
  ((48 <=? nat_of_ascii c) && (nat_of_ascii c <=? 57))%nat.

Definition digit (c : ascii) : Z := Z.of_nat (nat_of_ascii c) - 48.

(** [skip(value, prefix)] for a one-character prefix that is no space. *)
Definition skip (c : ascii) (value : string) : option string :=
  match value with
  | String a rest => if Ascii.eqb a c then Some rest else None
  | EmptyString => None
  end.

(** [getnum(s, fixed)]: two digits, or one digit when [fixed] is not set
    and no second digit follows. *)
Definition getnum (s : string) (fixed : bool) : option (Z * string) :=
  match s with
  | String a rest =>
      if isDigit a then
        match rest with
        | String b rest' =>
            if isDigit b then Some (digit a * 10 + digit b, rest')
            else if fixed then None else Some (digit a, rest)
        | EmptyString => if fixed then None else Some (digit a, rest)
        end
      else None
  | EmptyString => None
  end.

(** [stdLongYear]: four characters, the first a digit, read by [atoi],
    which then wants digits only. *)
Definition getyear (s : string) : option (Z * string) :=
  match s with
  | String a (String b (String c (String d rest))) =>
      if isDigit a && isDigit b && isDigit c && isDigit d
      then Some (digit a * 1000 + digit b * 100 + digit c * 10 + digit d, rest)
      else None
  | _ => None
  end.

(** [stdFracSecond0] with three digits: [parseNanoseconds(value, 4)].
    The separator is a period or a comma; the three characters after it
    go through [atoi], which accepts a sign in front of the digits; a
    negative result is out of range; the result is scaled to
    nanoseconds. *)
Definition parseNanoseconds (s : string) : option (Z * string) :=
  match s with
  | String p (String a (String b (String c rest))) =>
      if Ascii.eqb p "." || Ascii.eqb p "," then
        if isDigit a && isDigit b && isDigit c
        then Some ((digit a * 100 + digit b * 10 + digit c) * 1000000, rest)
        else if Ascii.eqb a "+" && isDigit b && isDigit c
        then Some ((digit b * 10 + digit c) * 1000000, rest)
        else if Ascii.eqb a "-" && isDigit b && isDigit c
        then if (digit b * 10 + digit c) =? 0 then Some (0, rest) else None
        else None
      else None
  | _ => None
  end.

Definition isLeap (year : Z) : bool :=
  (year mod 4 =? 0) && (negb (year mod 100 =? 0) || (year mod 400 =? 0)).

Definition daysIn (month year : Z) : Z :=
  if month =? 2 then (if isLeap year then 29 else 28)
  else if (month =? 4) || (month =? 6) || (month =? 9) || (month =? 11) then 30
  else 31.

(** Days from January 1, year 1 to January 1 of [year]. *)
Definition daysBeforeYear (year : Z) : Z :=
  let y := year - 1 in 365 * y + y / 4 - y / 100 + y / 400.

(** Days from January 1 of [year] to the first of [month]:
    adds [daysIn] of the months before, from month [m] on, [k] of them. *)
Fixpoint daysOfMonths (k : nat) (m year : Z) : Z :=
  match k with
  | O => 0
  | S k' => daysIn m year + daysOfMonths k' (m + 1) year
  end.

Definition daysBeforeMonth (month year : Z) : Z :=
  daysOfMonths (Z.to_nat (month - 1)) 1 year.

(** [Date(year, month, day, hour, min, sec, nsec, UTC)] on values in
    range. *)
Definition Date (year month day hour min sec nsec : Z) : time.Time :=
  {| time.sec :=
       (daysBeforeYear year + daysBeforeMonth month year + (day - 1)) * 86400
       + hour * 3600 + min * 60 + sec;
     time.nsec := nsec |}.

Definition guard (b : bool) : option unit := if b then Some tt else None.

Definition parseCanonical (value : string) : option time.Time :=
  '(year, value) ← getyear value;
  value ← skip "-" value;
  '(month, value) ← getnum value true;
  _ ← guard ((1 <=? month) && (month <=? 12));
  value ← skip "-" value;
  '(day, value) ← getnum value true;
  value ← skip "T" value;
  '(hour, value) ← getnum value false;
  _ ← guard (hour <? 24);
  value ← skip ":" value;
  '(min, value) ← getnum value true;
  _ ← guard (min <? 60);
  value ← skip ":" value;
  '(sec, value) ← getnum value true;
  _ ← guard (sec <? 60);
  '(nsec, value) ← parseNanoseconds value;
  value ← skip "Z" value;
  _ ← guard (String.eqb value "");
  _ ← guard ((1 <=? day) && (day <=? daysIn month year));
  Some (Date year month day hour min sec nsec).

Definition Parse (layout value : string) : time.Time * option error :=
  if String.eqb layout "2006-01-02T15:04:05.000Z" then
    match parseCanonical value with
    | Some t => (t, None)
    | None => (time.zero, Some ("parsing time " ++ value)%string)
    end
  else (time.zero, Some "layout outside the model"%string).

#[global, refine] Instance timeAPI : time.API := {| time.Parse := Parse |}.
Proof.
  intros layout value t e. unfold Parse. destruct (String.eqb _ _).
  - destruct (parseCanonical value); congruence.
  - congruence.
Defined.

End GoTime.

(** ** A test double for the provider *)

(** A small in-memory provider in the manner of the mock clients used to
    test such plugins: it holds the registered images and the existing
    snapshots, refuses to deregister the images listed as protected, and
    can be down for [DescribeImages]. *)
Module FakeEC2.

Record State : Type := {
  images : list ec2.Image;
  snapshots : list string;
  protected : list string;
  outage : option error
}.

Definition hasId (imageId : string) (image : ec2.Image) : bool :=
  match ec2.ImageId image with
  | Some i => String.eqb i imageId
  | None => false
  end.

Definition DescribeImages (input : ec2.DescribeImagesInput) (st : State)
  : (ec2.DescribeImagesOutput + error) * State :=
  match outage st with
  | Some e => (inr e, st)
  | None => (inl {| ec2.Images := images st |}, st)
  end.

Definition DeregisterImage (imageId : string) (st : State) : option error * State :=
  if existsb (String.eqb imageId) (protected st)
  then (Some ("OperationNotPermitted: " ++ imageId)%string, st)
  else if existsb (hasId imageId) (images st)
  then (None,
        {| images := List.filter (fun image => negb (hasId imageId image)) (images st);
           snapshots := snapshots st;
           protected := protected st;
           outage := outage st |})
  else (Some ("InvalidAMIID.NotFound: " ++ imageId)%string, st).

Definition DeleteSnapshot (snapshotId : string) (st : State) : option error * State :=
  if existsb (String.eqb snapshotId) (snapshots st)
  then (None,
        {| images := images st;
           snapshots := List.filter (fun s => negb (String.eqb snapshotId s)) (snapshots st);
           protected := protected st;
           outage := outage st |})
  else (Some ("InvalidSnapshot.NotFound: " ++ snapshotId)%string, st).

#[global] Instance ec2API : ec2iface.EC2API State :=
  {| ec2iface.DescribeImages := DescribeImages;
     ec2iface.DeregisterImage := DeregisterImage;
     ec2iface.DeleteSnapshot := DeleteSnapshot |}.

(** An image with one EBS device per snapshot given, and one ephemeral
    device when [ephemeral] is set. *)
Definition image (imageId creationDate : string) (snaps : list string)
  (ephemeral : bool) : ec2.Image :=
  {| ec2.ImageId := Some imageId;
     ec2.CreationDate := Some creationDate;
     ec2.BlockDeviceMappings :=
       (if ephemeral then [ {| ec2.Ebs := None |} ] else [])
       ++ List.map (fun s => {| ec2.Ebs := Some {| ec2.SnapshotId := Some s |} |}) snaps |}.

Definition ami1 : ec2.Image := image "ami-1" "2020-01-03T00:00:00.000Z" ["snap-1"] false.
Definition ami2 : ec2.Image := image "ami-2" "2020-01-02T00:00:00.000Z" ["snap-2"] false.
Definition ami3 : ec2.Image := image "ami-3" "2020-01-01T00:00:00.000Z" [] true.
(** A creation date that is not in the layout. *)
Definition amiBad : ec2.Image := image "ami-bad" "yesterday" ["snap-bad"] false.
(** A creation date in the layout, in year 0000. *)
Definition amiOld : ec2.Image := image "ami-old" "0000-06-01T00:00:00.000Z" ["snap-old"] false.

Definition ami4 : ec2.Image := image "ami-4" "2019-12-31T00:00:00.000Z" ["snap-4"] false.

Definition region (l : list ec2.Image) (snaps : list string) : State :=
  {| images := l; snapshots := snaps; protected := []; outage := None |}.

(** Three images, listed out of order, and their snapshots. *)
Definition three : State := region [ami3; ami1; ami2] ["snap-1"; "snap-2"].

(** Four images, one of which cannot be deregistered. *)
Definition guarded : State :=
  {| images := [ami3; ami1; ami4; ami2];
     snapshots := ["snap-1"; "snap-2"; "snap-4"];
     protected := ["ami-3"];
     outage := None |}.

(** Three images, the snapshot of one of which is gone. *)
Definition orphaned : State := region [ami3; ami1; ami2] ["snap-1"].

(** The provider does not answer [DescribeImages]. *)
Definition down : State :=
  {| images := [ami1]; snapshots := ["snap-1"]; protected := [];
     outage := Some "RequestLimitExceeded"%string |}.

(** An image of year 0000 and one whose date is not in the layout. *)
Definition odd : State := region [amiOld; amiBad] ["snap-old"; "snap-bad"].

Definition cfg (keep : Z) : Config :=
  {| Identifier := "web"; KeepReleases := keep;
     AccessKey := ""; SecretKey := ""; Region := "us-east-1" |}.

Definition processor (keep : Z) (st : State) : PostProcessor State :=
  {| ec2conn := Some st; config := cfg keep |}.

(** The connection [PostProcess] would build by itself is replaced by an
    empty region. *)
Definition newConn (region_ accessKey secretKey : string) : State := region [] [].

(** [PostProcess] on the fake, with a string for artifact. *)
Definition run (keep : Z) (st : State) : Run (Conn := State) (Artifact := string) :=
  PostProcess newConn (processor keep st) "artifact"%string.

End FakeEC2.

(** * The vocabulary of the properties *)

(** ** Creation dates and their order *)

Section Dates.

Context `{!time.API}.

(** The time the comparison gives an image: the parsed creation date,
    the zero [Time] when it does not parse; none when the field is
    [nil]. *)
Definition createdAt (image : ec2.Image) : option time.Time :=
  match ec2.CreationDate image with
  | Some value => Some (fst (time.Parse layout value))
  | None => None
  end.

Definition dated (image : ec2.Image) : Prop := is_Some (createdAt image).

(** [b] was not created after [a]. *)
Definition notNewer (b a : ec2.Image) : Prop :=
  exists tb ta,
    createdAt b = Some tb /\ createdAt a = Some ta /\ time.After tb ta = false.

(** Newest first: no image was created after one that stands before it. *)
Definition newestFirst (images : list ec2.Image) : Prop :=
  StronglySorted (fun a b => notNewer b a) images.

(** The creation date is there and [time.Parse] rejects it. *)
Definition unparsable (image : ec2.Image) : Prop :=
  exists value e,
    ec2.CreationDate image = Some value /\ snd (time.Parse layout value) = Some e.

(** The comparison puts the image strictly after the zero [Time]. *)
Definition afterZero (image : ec2.Image) : bool :=
  match createdAt image with
  | Some t => time.After t time.zero
  | None => false
  end.

(** For the proofs: the time of a dated image, total. *)
Definition timeOf (image : ec2.Image) : time.Time :=
  match createdAt image with
  | Some t => t
  | None => time.zero
  end.

(** One step of a pass of the inner loop, seen from the slice: [y] at
    index [m-1] meets the head of what the pass has already gone
    through. *)
Definition bubble (y : ec2.Image) (t : list ec2.Image) : list ec2.Image :=
  match t with
  | [] => [y]
  | x :: r => if time.After (timeOf y) (timeOf x) then y :: x :: r else x :: y :: r
  end.

(** A whole pass over [l]. *)
Definition pass (l : list ec2.Image) : list ec2.Image := fold_right bubble [] l.

(** [k] passes, each on what follows the head the one before left. *)
Fixpoint passes (k : nat) (l : list ec2.Image) : list ec2.Image :=
  match k with
  | O => l
  | S k' =>
      match pass l with
      | [] => []
      | h :: t => h :: passes k' t
      end
  end.

End Dates.

(** ** The calls among the events *)

(** The error a provider call answered with. *)
Definition failure (ev : Event) : option error :=
  match ev with
  | CallDescribeImages _ err => err
  | CallDeregisterImage _ err => err
  | CallDeleteSnapshot _ err => err
  | LogLine _ | UiMessage _ => None
  end.

(** The calls that delete: [DeregisterImage] and [DeleteSnapshot]. *)
Definition isDeleteCall (ev : Event) : bool :=
  match ev with
  | CallDeregisterImage _ _ | CallDeleteSnapshot _ _ => true
  | _ => false
  end.

(** The identifiers [DeregisterImage] was called on, in order. *)
Definition deregisterCalls (tr : list Event) : list string :=
  flat_map (fun ev => match ev with CallDeregisterImage i _ => [i] | _ => [] end) tr.

(** The identifiers of the images deleted: the calls of
    [DeregisterImage] that succeeded, in order. *)
Definition deregistered (tr : list Event) : list string :=
  flat_map (fun ev => match ev with CallDeregisterImage i None => [i] | _ => [] end) tr.

(** The identifiers [DeleteSnapshot] was called on, in order. *)
Definition snapshotCalls (tr : list Event) : list string :=
  flat_map (fun ev => match ev with CallDeleteSnapshot s _ => [s] | _ => [] end) tr.

(** The messages shown to the user, in order. *)
Definition uiMessages (tr : list Event) : list string :=
  flat_map (fun ev => match ev with UiMessage msg => [msg] | _ => [] end) tr.

(** The snapshots behind the EBS devices of a list of mappings. *)
Definition deviceSnapshotIds (devices : list ec2.BlockDeviceMapping) : list string :=
  flat_map
    (fun device =>
       match ec2.Ebs device with
       | Some {| ec2.SnapshotId := Some snapshotId |} => [snapshotId]
       | _ => []
       end) devices.

(** The snapshots of an image. *)
Definition snapshotIds (image : ec2.Image) : list string :=
  deviceSnapshotIds (ec2.BlockDeviceMappings image).

(** Every call of [DeregisterImage] in the events comes right after the
    message to the user and the log line about that image. *)
Definition announced (tr : list Event) : Prop :=
  forall before imageId err after,
    tr = before ++ CallDeregisterImage imageId err :: after ->
    exists earlier,
      before = earlier ++ [ UiMessage ("Deleting image: " ++ imageId);
                            LogLine ("Deleting image AMI (" ++ imageId ++ ")") ].

(** In the events [seg] produced for one image: a call of
    [DeleteSnapshot] comes after a call of [DeregisterImage] on that image
    that succeeded, and is on a snapshot of the image; when a call of
    [DeregisterImage] failed there is no call of [DeleteSnapshot]; every
    call of [DeregisterImage] is on that image. *)
Definition cascade (image : ec2.Image) (seg : list Event) : Prop :=
  (forall before snapshotId err after,
      seg = before ++ CallDeleteSnapshot snapshotId err :: after ->
      exists imageId,
        ec2.ImageId image = Some imageId
        /\ In (CallDeregisterImage imageId None) before
        /\ In snapshotId (snapshotIds image))
  /\ (forall imageId e,
         In (CallDeregisterImage imageId (Some e)) seg -> snapshotCalls seg = [])
  /\ (forall imageId,
         In imageId (deregisterCalls seg) -> ec2.ImageId image = Some imageId).

(** No error came with the event. *)
Abbreviation quiet := (fun ev : Event => failure ev = None).

(** ** The events of deletions that succeed *)

(** The events of the deletion of one snapshot that succeeds. *)
Definition snapshotDeleted (imageId snapshotId : string) : list Event :=
  [ LogLine ("Deleting snapshot (" ++ snapshotId ++ ") related to AMI (" ++ imageId ++ ")");
    CallDeleteSnapshot snapshotId None ].

(** The events of the loop over the devices when every call succeeds. *)
Definition snapshotsDeleted (imageId : string) (devices : list ec2.BlockDeviceMapping)
  : list Event :=
  flat_map
    (fun device =>
       match ec2.Ebs device with
       | Some {| ec2.SnapshotId := Some snapshotId |} => snapshotDeleted imageId snapshotId
       | _ => []
       end) devices.

(** The events up to and including the call of [DeregisterImage]. *)
Definition deregisterAttempt (imageId : string) (err : option error) : list Event :=
  [ UiMessage ("Deleting image: " ++ imageId);
    LogLine ("Deleting image AMI (" ++ imageId ++ ")");
    CallDeregisterImage imageId err ].

(** The events of the deletion of an image when every call succeeds. *)
Definition imageDeleted (image : ec2.Image) : list Event :=
  match ec2.ImageId image with
  | Some imageId =>
      deregisterAttempt imageId None
      ++ LogLine ("Deleting snapshot related to AMI (" ++ imageId ++ ")")
      :: snapshotsDeleted imageId (ec2.BlockDeviceMappings image)
  | None => []
  end.

(** The images the loop does not skip: those from index [keepReleases]
    on. *)
Definition deletionSet (keepReleases : Z) (images : list ec2.Image) : list ec2.Image :=
  skipn (Z.to_nat keepReleases) images.

(** The images the loop skips. *)
Definition retained (keepReleases : Z) (images : list ec2.Image) : list ec2.Image :=
  firstn (Z.to_nat keepReleases) images.


(** ** The shapes a run can take *)

Section Shapes.

Context {Artifact : Type}.

Abbreviation Flow := (@Flow Artifact).

(** How the loop over the devices of an image can end. *)
Inductive SnapshotsOutcome (imageId : string) (devices : list ec2.BlockDeviceMapping)
  : Flow unit -> list Event -> Prop :=
| snapshots_deleted :
    SnapshotsOutcome imageId devices (Next tt) (snapshotsDeleted imageId devices)
| snapshot_failed before device after snapshotId e :
    devices = before ++ device :: after ->
    ec2.Ebs device = Some {| ec2.SnapshotId := Some snapshotId |} ->
    SnapshotsOutcome imageId devices (Return (None, true, Some e))
      (snapshotsDeleted imageId before
       ++ [ LogLine ("Deleting snapshot (" ++ snapshotId ++ ") related to AMI ("
                       ++ imageId ++ ")");
            CallDeleteSnapshot snapshotId (Some e) ])
| snapshot_missing before device after :
    devices = before ++ device :: after ->
    ec2.Ebs device = Some {| ec2.SnapshotId := None |} ->
    SnapshotsOutcome imageId devices (Panic nil_dereference)
      (snapshotsDeleted imageId before).

(** How the body of the loop over the images can end. *)
Inductive ImageOutcome (image : ec2.Image) : Flow unit -> list Event -> Prop :=
| image_deleted imageId :
    ec2.ImageId image = Some imageId ->
    ImageOutcome image (Next tt) (imageDeleted image)
| image_without_id :
    ec2.ImageId image = None ->
    ImageOutcome image (Panic nil_dereference) []
| deregister_failed imageId e :
    ec2.ImageId image = Some imageId ->
    ImageOutcome image (Return (None, true, Some e)) (deregisterAttempt imageId (Some e))
| snapshots_stopped imageId fl tr :
    ec2.ImageId image = Some imageId ->
    SnapshotsOutcome imageId (ec2.BlockDeviceMappings image) fl tr ->
    fl <> Next tt ->
    ImageOutcome image fl
      (deregisterAttempt imageId None
       ++ LogLine ("Deleting snapshot related to AMI (" ++ imageId ++ ")") :: tr).

(** How the loop over the images to delete can end: after all of them,
    or inside the body for one of them. *)
Inductive LoopOutcome (images : list ec2.Image) : Flow unit -> list Event -> Prop :=
| loop_finished :
    Forall (fun image => is_Some (ec2.ImageId image)) images ->
    LoopOutcome images (Next tt) (flat_map imageDeleted images)
| loop_stopped done image later fl tr :
    images = done ++ image :: later ->
    Forall (fun image => is_Some (ec2.ImageId image)) done ->
    ImageOutcome image fl tr ->
    fl <> Next tt ->
    LoopOutcome images fl (flat_map imageDeleted done ++ tr).

(** Either no call failed and nothing was returned from inside the loop,
    or the last event is the one call that failed and its error was
    returned with a [nil] artifact and the flag set. *)
Inductive Ending : Flow unit -> list Event -> Prop :=
| ends_quiet fl tr :
    (forall r, fl <> Return r) -> Forall quiet tr -> Ending fl tr
| ends_failed e tr ev :
    Forall quiet tr -> failure ev = Some e -> isDeleteCall ev = true ->
    Ending (Return (None, true, Some e)) (tr ++ [ev]).

(** What the function returns for the way its loop ended. *)
Definition returnedFor (artifact : Artifact) (fl : Flow unit)
  : Outcome (@Result Artifact) :=
  match fl with
  | Next _ => Done (Some artifact, true, None)
  | Return r => Done r
  | Panic msg => Panicked msg
  end.

End Shapes.

(** ** The parts of a run of [PostProcess] *)

Section Parts.

Context {Conn : Type} `{!ec2iface.EC2API Conn}.
Variable newConn : string -> string -> string -> Conn.

(** The connection the run uses: the injected one, or the one it builds. *)
Definition connectionUsed (p : PostProcessor Conn) : Conn :=
  match ec2conn p with
  | Some conn => conn
  | None => newConn (Region (config p)) (AccessKey (config p)) (SecretKey (config p))
  end.

(** What the provider answers to that call. *)
Definition listing (p : PostProcessor Conn) : ec2.DescribeImagesOutput + error :=
  fst (ec2iface.DescribeImages (describeInput (config p)) (connectionUsed p)).

(** The events before the call of [DescribeImages]. *)
Definition preamble (p : PostProcessor Conn) : list Event :=
  LogLine "Running Amazon AMI Management post-processor"
  :: match ec2conn p with
     | Some _ => []
     | None => [LogLine "Creating AWS session"]
     end
  ++ [LogLine "Describing images for generation management"].

(** The events from the start of the run to the start of the loop, when
    the listing was obtained. *)
Definition listed (p : PostProcessor Conn) : list Event :=
  preamble p
  ++ [CallDescribeImages (describeInput (config p)) None;
      LogLine "Deleting old images..."].

(** [p] with another retention count. *)
Definition withKeepReleases (keep : Z) (p : PostProcessor Conn) : PostProcessor Conn :=
  {| ec2conn := ec2conn p;
     config := {| Identifier := Identifier (config p);
                  KeepReleases := keep;
                  AccessKey := AccessKey (config p);
                  SecretKey := SecretKey (config p);
                  Region := Region (config p) |} |}.

End Parts.

(** The events of the run on [FakeEC2.guarded] before the call that
    fails. *)
Definition guardedBefore : list Event :=
  listed (FakeEC2.processor 1 FakeEC2.guarded)
  ++ imageDeleted FakeEC2.ami2
  ++ [ UiMessage "Deleting image: ami-3";
       LogLine "Deleting image AMI (ami-3)" ].

(** ** More vocabulary *)

(** The calls of [DescribeImages] among the events, with their results. *)
Definition describeCalls (tr : list Event)
  : list (ec2.DescribeImagesInput * option error) :=
  flat_map
    (fun ev => match ev with CallDescribeImages input err => [(input, err)] | _ => [] end)
    tr.

(** The event is a call to the provider. *)
Definition isProviderCall (ev : Event) : bool :=
  match ev with
  | CallDescribeImages _ _ | CallDeregisterImage _ _ | CallDeleteSnapshot _ _ => true
  | LogLine _ | UiMessage _ => false
  end.

(** What the loop dereferences of an image it deletes is there: the
    identifier of the image, and the snapshot identifier of each of its
    EBS devices. *)
Definition deletable (image : ec2.Image) : Prop :=
  is_Some (ec2.ImageId image)
  /\ Forall
       (fun device =>
          forall ebs, ec2.Ebs device = Some ebs -> is_Some (ec2.SnapshotId ebs))
       (ec2.BlockDeviceMappings image).

(** A provider that never refuses a deletion. *)
Definition neverRefuses (Conn : Type) `{!ec2iface.EC2API Conn} : Prop :=
  forall (id : string) (c : Conn),
    fst (ec2iface.DeregisterImage id c) = None
    /\ fst (ec2iface.DeleteSnapshot id c) = None.


(** ** A provider that never refuses *)

(** A shelf of images: [DescribeImages] lists them and both deletions
    succeed, whatever they are asked to delete. *)
Module Shelf.

Record State : Type := { images : list ec2.Image }.

#[global] Instance ec2API : ec2iface.EC2API State :=
  {| ec2iface.DescribeImages := fun _ st => (inl {| ec2.Images := images st |}, st);
     ec2iface.DeregisterImage := fun _ st => (None, st);
     ec2iface.DeleteSnapshot := fun _ st => (None, st) |}.

Definition newConn (region_ accessKey secretKey : string) : State := {| images := [] |}.

(** The three images of [FakeEC2], out of order; no connection is
    injected. *)
Definition processor (keep : Z) : PostProcessor State :=
  {| ec2conn := Some {| images := [FakeEC2.ami3; FakeEC2.ami1; FakeEC2.ami2] |};
     config := FakeEC2.cfg keep |}.

End Shelf.

(** ** Replaying the calls *)

Section Replay.

Context {Conn : Type} `{!ec2iface.EC2API Conn}.




End Replay.

(** ** More cases for the test doubles *)

Module Cases.

(** An image whose EBS device has no snapshot identifier. *)
Definition amiBlank : ec2.Image :=
  {| ec2.ImageId := Some "ami-5"%string;
     ec2.CreationDate := Some "2020-01-05T00:00:00.000Z"%string;
     ec2.BlockDeviceMappings := [ {| ec2.Ebs := Some {| ec2.SnapshotId := None |} |} ] |}.

(** An image without creation date. *)
Definition amiUndated : ec2.Image :=
  {| ec2.ImageId := Some "ami-6"%string;
     ec2.CreationDate := None;
     ec2.BlockDeviceMappings := [] |}.

(** Two images whose creation dates do not parse. *)
Definition amiBad1 : ec2.Image := FakeEC2.image "ami-7" "n/a" [] false.
Definition amiBad2 : ec2.Image := FakeEC2.image "ami-8" "unknown" [] false.

Definition blank : FakeEC2.State := FakeEC2.region [FakeEC2.ami1; amiBlank] ["snap-1"%string].
Definition undated : FakeEC2.State :=
  FakeEC2.region [FakeEC2.ami1; amiUndated] ["snap-1"%string].

End Cases.

(** * Properties *)

(** ** The order of times *)

Module TimeFacts.

Lemma After_irrefl t : time.After t t = false.
Proof. unfold time.After. destruct t as [s n]; simpl. lia. Qed.

Lemma After_asym t u : time.After t u = true -> time.After u t = false.
Proof. unfold time.After. destruct t, u; simpl. lia. Qed.

Lemma not_After_trans t u v :
  time.After t u = false -> time.After u v = false -> time.After t v = false.
Proof. unfold time.After. destruct t, u, v; simpl. lia. Qed.

Lemma After_trans t u v :
  time.After t u = true -> time.After u v = true -> time.After t v = true.
Proof. unfold time.After. destruct t, u, v; simpl. lia. Qed.

Lemma After_not_After_trans t u v :
  time.After t u = true -> time.After v u = false -> time.After t v = true.
Proof. unfold time.After. destruct t, u, v; simpl. lia. Qed.

End TimeFacts.

(** ** Slices *)

Section Slices.

Context {A : Type}.
Implicit Types (l : list A) (a b : A).

Lemma in_range i n : 0 <= i < n -> (0 <=? i) && (i <? n) = true.
Proof.
  intros Hi. apply andb_true_iff. split; [apply Z.leb_le | apply Z.ltb_lt]; lia.
Qed.

Lemma index_middle l1 a l2 :
  index (l1 ++ a :: l2) (Z.of_nat (length l1)) = Done a.
Proof.
  unfold index. rewrite length_app. simpl.
  rewrite in_range by lia.
  rewrite Nat2Z.id, list_lookup_middle; reflexivity.
Qed.

Lemma store_middle l1 a l2 b :
  store (l1 ++ a :: l2) (Z.of_nat (length l1)) b = Done (l1 ++ b :: l2).
Proof.
  unfold store. rewrite length_app. simpl.
  rewrite in_range by lia.
  rewrite Nat2Z.id. f_equal.
  rewrite insert_app_r_alt by lia. rewrite Nat.sub_diag. reflexivity.
Qed.

End Slices.

(** ** The loops of [sort] *)

Section SortTheory.

Context `{!time.API}.

Lemma dated_createdAt image : dated image -> createdAt image = Some (timeOf image).
Proof. intros [t Ht]. unfold timeOf. rewrite Ht. reflexivity. Qed.

Lemma parsedCreationDate_middle l1 image l2 :
  parsedCreationDate (l1 ++ image :: l2) (Z.of_nat (length l1)) =
  match createdAt image with
  | Some t => Done t
  | None => Panicked nil_dereference
  end.
Proof.
  unfold parsedCreationDate, createdAt. rewrite index_middle.
  destruct (ec2.CreationDate image); reflexivity.
Qed.

Lemma lessFunc_adjacent l1 a b l2 :
  lessFunc (Z.of_nat (length l1)) (Z.of_nat (length l1) + 1) (l1 ++ a :: b :: l2) =
  match createdAt a, createdAt b with
  | Some ta, Some tb => Done (time.After ta tb)
  | _, _ => Panicked nil_dereference
  end.
Proof.
  unfold lessFunc. rewrite parsedCreationDate_middle.
  destruct (createdAt a) as [ta|]; [|reflexivity].
  replace (l1 ++ a :: b :: l2) with ((l1 ++ [a]) ++ b :: l2)
    by (rewrite <- app_assoc; reflexivity).
  replace (Z.of_nat (length l1) + 1) with (Z.of_nat (length (l1 ++ [a])))
    by (rewrite length_app; simpl; lia).
  rewrite parsedCreationDate_middle.
  destruct (createdAt b); reflexivity.
Qed.

Lemma swapFunc_adjacent l1 a b l2 :
  swapFunc (Z.of_nat (length l1)) (Z.of_nat (length l1) + 1) (l1 ++ a :: b :: l2) =
  Done (l1 ++ b :: a :: l2).
Proof.
  assert (Hj : Z.of_nat (length l1) + 1 = Z.of_nat (length (l1 ++ [a])))
    by (rewrite length_app; simpl; lia).
  assert (Hj' : Z.of_nat (length l1) + 1 = Z.of_nat (length (l1 ++ [b])))
    by (rewrite length_app; simpl; lia).
  assert (Hsplit : forall x y, l1 ++ x :: y :: l2 = (l1 ++ [x]) ++ y :: l2)
    by (intros; rewrite <- app_assoc; reflexivity).
  assert (H1 : index (l1 ++ a :: b :: l2) (Z.of_nat (length l1) + 1) = Done b)
    by (rewrite Hj, Hsplit; apply index_middle).
  assert (H2 : store (l1 ++ b :: b :: l2) (Z.of_nat (length l1) + 1) a
               = Done (l1 ++ b :: a :: l2)).
  { rewrite Hj', Hsplit, store_middle, <- app_assoc. reflexivity. }
  unfold swapFunc. rewrite H1, index_middle, store_middle. exact H2.
Qed.

Lemma sort_body_adjacent l1 a b l2 :
  sort_body lessFunc swapFunc (Z.of_nat (length l1) + 1) (l1 ++ a :: b :: l2) =
  match createdAt a, createdAt b with
  | Some ta, Some tb => Done (l1 ++ bubble a (b :: l2))
  | _, _ => Panicked nil_dereference
  end.
Proof.
  unfold sort_body.
  replace (Z.of_nat (length l1) + 1 - 1) with (Z.of_nat (length l1)) by lia.
  rewrite lessFunc_adjacent. unfold bubble, timeOf.
  destruct (createdAt a) as [ta|]; [|reflexivity].
  destruct (createdAt b) as [tb|]; [|reflexivity].
  destruct (time.After ta tb); [reflexivity|].
  apply swapFunc_adjacent.
Qed.

Lemma sort_inner_eq {Slice : Type} (less : Z -> Z -> Slice -> Outcome bool)
  (swap : Z -> Z -> Slice -> Outcome Slice) n m s :
  sort_inner less swap n m s =
  if Z_gt_dec m n then
    match sort_body less swap m s with
    | Panicked msg => Panicked msg
    | Done s' => sort_inner less swap n (m - 1) s'
    end
  else Done s.
Proof.
  simp sort_inner. destruct (Z_gt_dec m n); simpl; [|reflexivity].
  destruct (sort_body less swap m s); reflexivity.
Qed.

Lemma sort_outer_eq {Slice : Type} (less : Z -> Z -> Slice -> Outcome bool)
  (swap : Z -> Z -> Slice -> Outcome Slice) len n s :
  sort_outer less swap len n s =
  if Z_lt_dec n (len - 1) then
    match sort_inner less swap n (len - 1) s with
    | Panicked msg => Panicked msg
    | Done s' => sort_outer less swap len (n + 1) s'
    end
  else Done s.
Proof.
  simp sort_outer. destruct (Z_lt_dec n (len - 1)); simpl; [|reflexivity].
  destruct (sort_inner less swap n (len - 1) s); reflexivity.
Qed.

Lemma bubble_head_dated y t :
  dated y -> (forall x r, t = x :: r -> dated x) ->
  exists x r, bubble y t = x :: r /\ dated x.
Proof.
  intros Hy Ht. destruct t as [|x r]; simpl.
  - eauto.
  - destruct (time.After _ _); eauto.
Qed.

(** The inner loop entered at [m] on [pre ++ mid ++ t], where [pre] are
    the [n] first elements and [t] starts at index [m]: it bubbles the
    elements of [mid], last first, into [t]. *)
Lemma sort_inner_bubbles mid : forall pre x r,
  Forall dated mid -> dated x ->
  sort_inner lessFunc swapFunc (Z.of_nat (length pre))
    (Z.of_nat (length pre + length mid)) (pre ++ mid ++ x :: r) =
  Done (pre ++ fold_right bubble (x :: r) mid).
Proof.
  induction mid as [|y mid IH] using rev_ind; intros pre x r Hmid Hx.
  - rewrite sort_inner_eq. simpl. rewrite Nat.add_0_r.
    destruct (Z_gt_dec _ _); [lia | reflexivity].
  - apply Forall_app in Hmid as [Hmid Hy]. apply Forall_cons_1 in Hy as [Hy _].
    rewrite sort_inner_eq. rewrite length_app. simpl.
    destruct (Z_gt_dec _ _); [|lia].
    rewrite <- app_assoc. simpl. rewrite app_assoc.
    replace (Z.of_nat (length pre + (length mid + 1)))
      with (Z.of_nat (length (pre ++ mid)) + 1) by (rewrite length_app; lia).
    rewrite sort_body_adjacent.
    rewrite (dated_createdAt y Hy), (dated_createdAt x Hx).
    replace (Z.of_nat (length (pre ++ mid)) + 1 - 1)
      with (Z.of_nat (length pre + length mid)) by (rewrite length_app; lia).
    rewrite <- app_assoc.
    destruct (bubble_head_dated y (x :: r) Hy) as (x' & r' & Hb & Hx').
    { intros ? ? [= <- <-]. exact Hx. }
    rewrite fold_right_app.
    change (fold_right bubble (x :: r) [y]) with (bubble y (x :: r)).
    rewrite Hb. apply IH; assumption.
Qed.

(** Entered on a stretch that holds an image without creation date, the
    inner loop panics. *)
Lemma sort_inner_panics mid : forall pre x r,
  mid <> [] ->
  Exists (fun image => createdAt image = None) (mid ++ [x]) ->
  sort_inner lessFunc swapFunc (Z.of_nat (length pre))
    (Z.of_nat (length pre + length mid)) (pre ++ mid ++ x :: r) =
  Panicked nil_dereference.
Proof.
  induction mid as [|y mid IH] using rev_ind; intros pre x r Hne Hex.
  - congruence.
  - rewrite sort_inner_eq. rewrite length_app. simpl.
    destruct (Z_gt_dec _ _); [|lia].
    rewrite <- app_assoc. simpl. rewrite app_assoc.
    replace (Z.of_nat (length pre + (length mid + 1)))
      with (Z.of_nat (length (pre ++ mid)) + 1) by (rewrite length_app; lia).
    rewrite sort_body_adjacent.
    destruct (createdAt y) as [ty|] eqn:Hy; [|reflexivity].
    destruct (createdAt x) as [tx|] eqn:Hx; [|reflexivity].
    replace (Z.of_nat (length (pre ++ mid)) + 1 - 1)
      with (Z.of_nat (length pre + length mid)) by (rewrite length_app; lia).
    rewrite <- app_assoc.
    assert (Hmid : Exists (fun image => createdAt image = None) mid).
    { rewrite <- app_assoc in Hex. apply Exists_app in Hex as [Hex|Hex]; [exact Hex|].
      inversion Hex as [? ? Hbad|? ? Hex']; subst; [congruence|].
      inversion Hex' as [? ? Hbad|? ? Hnil]; subst; [congruence|inversion Hnil]. }
    destruct (bubble_head_dated y (x :: r)) as (x' & r' & Hb & Hx').
    { unfold dated. rewrite Hy. eauto. }
    { intros ? ? [= <- <-]. unfold dated. rewrite Hx. eauto. }
    rewrite Hb. apply IH.
    + intros ->. inversion Hmid.
    + apply Exists_app. left. exact Hmid.
Qed.

Lemma bubble_perm y t : Permutation (bubble y t) (y :: t).
Proof.
  destruct t as [|x r]; simpl; [reflexivity|].
  destruct (time.After _ _); [reflexivity | apply perm_swap].
Qed.

Lemma pass_perm l : Permutation (pass l) l.
Proof.
  induction l as [|y l IH]; simpl; [reflexivity|].
  fold (pass l). rewrite bubble_perm. apply perm_skip, IH.
Qed.

(** A pass brings a newest image to the front. *)
Lemma pass_head l h t :
  pass l = h :: t ->
  Forall (fun x => time.After (timeOf x) (timeOf h) = false) t.
Proof.
  revert h t. induction l as [|y l IH]; intros h t; simpl; [discriminate|].
  fold (pass l). destruct (pass l) as [|x r] eqn:Hp; simpl.
  - intros [= <- <-]. constructor.
  - specialize (IH x r eq_refl).
    destruct (time.After (timeOf y) (timeOf x)) eqn:Hyx; intros [= <- <-].
    + constructor; [apply TimeFacts.After_asym, Hyx|].
      eapply Forall_impl; [exact IH|]. simpl. intros z Hz.
      eapply TimeFacts.not_After_trans; [exact Hz|].
      apply TimeFacts.After_asym, Hyx.
    + constructor; assumption.
Qed.

Lemma passes_perm k : forall l, Permutation (passes k l) l.
Proof.
  induction k as [|k IH]; intros l; simpl; [reflexivity|].
  pose proof (pass_perm l) as Hp. destruct (pass l) as [|h t].
  - exact Hp.
  - rewrite <- Hp. apply perm_skip, IH.
Qed.

Lemma passes_sorted k : forall l,
  (length l <= S k)%nat ->
  StronglySorted (fun a b => time.After (timeOf b) (timeOf a) = false) (passes k l).
Proof.
  induction k as [|k IH]; intros l Hlen; simpl.
  - destruct l as [|x [|y l]]; simpl in Hlen; try lia.
    + constructor.
    + constructor; constructor.
  - pose proof (pass_perm l) as Hp. pose proof (pass_head l) as Hh.
    destruct (pass l) as [|h t]; [constructor|].
    constructor.
    + apply IH. apply Permutation_length in Hp. simpl in Hp. lia.
    + eapply Permutation_Forall; [symmetry; apply passes_perm|].
      apply (Hh h t eq_refl).
Qed.

Lemma pass_snoc mid x : pass (mid ++ [x]) = fold_right bubble [x] mid.
Proof. unfold pass. rewrite fold_right_app. reflexivity. Qed.

(** The outer loop entered at [n] on [pre ++ suf], [pre] being the [n]
    first elements: a pass on [suf], then on its tail, and so on. *)
Lemma sort_outer_passes k : forall suf pre,
  length suf = k -> Forall dated suf ->
  sort_outer lessFunc swapFunc (Z.of_nat (length pre + length suf))
    (Z.of_nat (length pre)) (pre ++ suf) =
  Done (pre ++ passes (length suf - 1) suf).
Proof.
  induction k as [k IH] using lt_wf_ind. intros suf pre Hk Hd.
  rewrite sort_outer_eq. destruct (Z_lt_dec _ _) as [Hlt|Hge].
  - destruct suf as [|x suf _] using rev_ind; [simpl in Hlt; lia|].
    rewrite length_app in *. simpl in *.
    apply Forall_app in Hd as Hd'. destruct Hd' as [Hmid Hx].
    apply Forall_cons_1 in Hx as [Hx _].
    replace (Z.of_nat (length pre + (length suf + 1)) - 1)
      with (Z.of_nat (length pre + length suf)) by lia.
    rewrite sort_inner_bubbles by assumption.
    rewrite <- pass_snoc.
    pose proof (pass_perm (suf ++ [x])) as Hp.
    replace (length suf + 1 - 1)%nat with (S (length suf - 1)) by lia.
    simpl passes. destruct (pass (suf ++ [x])) as [|h t] eqn:Hpass.
    { apply Permutation_length in Hp. rewrite length_app in Hp. simpl in Hp. lia. }
    assert (Hlen : length t = length suf).
    { apply Permutation_length in Hp. rewrite length_app in Hp. simpl in Hp. lia. }
    assert (Hdt : Forall dated t).
    { eapply Permutation_Forall in Hd; [|symmetry; exact Hp].
      apply Forall_cons_1 in Hd as [_ Hd]. exact Hd. }
    specialize (IH (length t) ltac:(lia) t (pre ++ [h]) eq_refl Hdt).
    rewrite length_app in IH. simpl in IH.
    replace (Z.of_nat (length pre + 1 + length t))
      with (Z.of_nat (length pre + (length suf + 1))) in IH by lia.
    replace (Z.of_nat (length pre + 1)) with (Z.of_nat (length pre) + 1) in IH by lia.
    rewrite <- app_assoc in IH. simpl in IH. rewrite IH.
    rewrite <- app_assoc. simpl. rewrite Hlen. reflexivity.
  - destruct suf as [|x [|y suf]]; simpl in Hge; try lia; reflexivity.
Qed.

Lemma sorted_newestFirst l :
  Forall dated l ->
  StronglySorted (fun a b => time.After (timeOf b) (timeOf a) = false) l ->
  newestFirst l.
Proof.
  intros Hd Hs. induction Hs as [|a l Hs IH Ha]; [constructor|].
  apply Forall_cons_1 in Hd as [Hda Hdl]. constructor; [apply IH, Hdl|].
  rewrite Forall_forall in Ha, Hdl. apply Forall_forall. intros b Hb.
  exists (timeOf b), (timeOf a). repeat split.
  - apply dated_createdAt, Hdl, Hb.
  - apply dated_createdAt, Hda.
  - apply Ha, Hb.
Qed.

(** When every image has a creation date the call of [sort] returns:
    no panic, a [nil] error, and the images rearranged by the passes. *)
Lemma sortImages_dated images :
  Forall dated images ->
  sortImages images = Done (None, passes (length images - 1) images).
Proof.
  intros Hd. unfold sortImages, sort.
  pose proof (sort_outer_passes (length images) images [] eq_refl Hd) as H0.
  simpl in H0. change (Z.of_nat 0) with 0 in H0. rewrite H0. reflexivity.
Qed.

(** With at most one image nothing is compared. *)
Lemma sortImages_short images :
  (length images <= 1)%nat -> sortImages images = Done (None, images).
Proof.
  intros Hlen. unfold sortImages, sort. rewrite sort_outer_eq.
  destruct (Z_lt_dec _ _); [lia | reflexivity].
Qed.

(** With two images or more, one of which has no creation date, the
    comparison dereferences [nil]. *)
Lemma sortImages_panics images :
  (1 < length images)%nat ->
  Exists (fun image => createdAt image = None) images ->
  sortImages images = Panicked nil_dereference.
Proof.
  intros Hlen Hex. unfold sortImages, sort. rewrite sort_outer_eq.
  destruct (Z_lt_dec _ _); [|lia].
  destruct images as [|x mid _] using rev_ind; [simpl in Hlen; lia|].
  rewrite length_app in *. simpl in *.
  replace (Z.of_nat (length mid + 1) - 1) with (Z.of_nat (length (@nil ec2.Image) + length mid))
    by (simpl; lia).
  change 0 with (Z.of_nat (length (@nil ec2.Image))).
  change (mid ++ [x]) with ([] ++ mid ++ x :: []).
  rewrite sort_inner_panics; [reflexivity| |exact Hex].
  intros ->. simpl in Hlen. lia.
Qed.

Lemma dated_or_not images :
  Forall dated images \/ Exists (fun image => createdAt image = None) images.
Proof.
  induction images as [|a l [IH|IH]].
  - left. constructor.
  - destruct (createdAt a) eqn:Ha.
    + left. constructor; [unfold dated; rewrite Ha; eauto | exact IH].
    + right. constructor. exact Ha.
  - right. apply Exists_cons_tl, IH.
Qed.

(** What the call of [sort] returns, whenever it returns: a [nil] error
    and the same images, newest first. *)
Lemma sortImages_Done images err sorted :
  sortImages images = Done (err, sorted) ->
  err = None /\ Permutation images sorted /\ newestFirst sorted.
Proof.
  intros Hs. destruct (dated_or_not images) as [Hd|Hex].
  - rewrite sortImages_dated in Hs by exact Hd. injection Hs as <- <-.
    split; [reflexivity|]. split; [symmetry; apply passes_perm|].
    apply sorted_newestFirst.
    + eapply Permutation_Forall; [symmetry; apply passes_perm | exact Hd].
    + apply passes_sorted. lia.
  - destruct (Nat.le_gt_cases (length images) 1) as [Hlen|Hlen].
    + rewrite sortImages_short in Hs by exact Hlen. injection Hs as <- <-.
      split; [reflexivity|]. split; [reflexivity|].
      destruct images as [|x [|y l]]; simpl in Hlen; try lia.
      * constructor.
      * constructor; constructor.
    + rewrite sortImages_panics in Hs by assumption. discriminate.
Qed.

Lemma StronglySorted_app_inv {A : Type} (R : A -> A -> Prop) l1 l2 :
  StronglySorted R (l1 ++ l2) -> forall a b, In a l1 -> In b l2 -> R a b.
Proof.
  induction l1 as [|x l1 IH]; intros Hs a b Ha Hb; [destruct Ha|].
  simpl in Hs. apply StronglySorted_inv in Hs as [Hs Hx].
  destruct Ha as [<-|Ha].
  - rewrite List.Forall_forall in Hx. apply Hx, in_or_app. right. exact Hb.
  - apply IH; assumption.
Qed.


Lemma unparsable_zero image : unparsable image -> createdAt image = Some time.zero.
Proof.
  intros (value & e & Hdate & Herr). unfold createdAt. rewrite Hdate.
  destruct (time.Parse layout value) as [t err] eqn:Hparse. simpl in *. subst err.
  rewrite (time.Parse_error_zero _ _ _ _ Hparse). reflexivity.
Qed.

Lemma unparsable_not_afterZero image : unparsable image -> afterZero image = false.
Proof.
  intros Hbad. unfold afterZero. rewrite (unparsable_zero image Hbad). reflexivity.
Qed.

Lemma newestFirst_after_unparsable before bad after :
  newestFirst (before ++ bad :: after) -> unparsable bad ->
  Forall (fun image => afterZero image = false) after.
Proof.
  intros Hsorted Hbad. apply List.Forall_forall. intros image Hin.
  assert (Hrel : notNewer image bad).
  { apply (StronglySorted_app_inv (fun a b => notNewer b a) (before ++ [bad]) after).
    - rewrite <- app_assoc. exact Hsorted.
    - apply in_or_app. right. left. reflexivity.
    - exact Hin. }
  destruct Hrel as (ti & tb & Hi & Hb & Hafter).
  rewrite (unparsable_zero bad Hbad) in Hb. injection Hb as <-.
  unfold afterZero. rewrite Hi. exact Hafter.
Qed.

Lemma filter_none {A : Type} (f : A -> bool) (l : list A) :
  Forall (fun x => f x = false) l -> List.filter f l = [].
Proof.
  induction 1 as [|x l Hx _ IH]; simpl; [reflexivity|]. rewrite Hx. exact IH.
Qed.

Lemma filter_length_le {A : Type} (f : A -> bool) (l : list A) :
  (length (List.filter f l) <= length l)%nat.
Proof.
  induction l as [|x l IH]; simpl; [lia|]. destruct (f x); simpl; lia.
Qed.

Lemma filter_permutation {A : Type} (f : A -> bool) (l l' : list A) :
  Permutation l l' -> Permutation (List.filter f l) (List.filter f l').
Proof.
  induction 1 as [|x l l' _ IH|x y l|l l' l'' _ IH1 _ IH2]; simpl.
  - reflexivity.
  - destruct (f x); [apply perm_skip|]; exact IH.
  - destruct (f x), (f y); try reflexivity. apply perm_swap.
  - etransitivity; eassumption.
Qed.

End SortTheory.

(** ** The events of the loops *)

(** Runs the statements in front of the goal, or of a hypothesis, down to
    the provider calls. *)
Ltac run_statements :=
  unfold bind, lift, ret, return_, emit, log_Println, ui_Message,
    call_DescribeImages, call_DeregisterImage, call_DeleteSnapshot;
  simpl.

Tactic Notation "run_statements" "in" hyp(H) :=
  unfold bind, lift, ret, return_, emit, log_Println, ui_Message,
    call_DescribeImages, call_DeregisterImage, call_DeleteSnapshot in H;
  simpl in H.

Section Loops.

Context {Conn : Type} `{!ec2iface.EC2API Conn} {Artifact : Type}.
Implicit Types (fl : @Flow Artifact unit) (tr : list Event).

Lemma classic_next (fl : @Flow Artifact unit) : fl = Next tt \/ fl <> Next tt.
Proof. destruct fl as [[]|r|msg]; [left; reflexivity | right | right]; discriminate. Qed.

Lemma with_events (P : list Event -> Prop) tr tr' : P tr -> tr = tr' -> P tr'.
Proof. intros HP <-. exact HP. Qed.

Lemma snapshotsDeleted_cons imageId device rest :
  snapshotsDeleted imageId (device :: rest) =
  match ec2.Ebs device with
  | Some {| ec2.SnapshotId := Some snapshotId |} => snapshotDeleted imageId snapshotId
  | _ => []
  end ++ snapshotsDeleted imageId rest.
Proof. reflexivity. Qed.

Lemma SnapshotsOutcome_cons imageId device rest fl tr :
  SnapshotsOutcome imageId rest fl tr ->
  SnapshotsOutcome imageId (device :: rest) fl
    (snapshotsDeleted imageId [device] ++ tr).
Proof.
  intros Hrest.
  assert (Hcons : forall l, snapshotsDeleted imageId [device] ++ snapshotsDeleted imageId l
                            = snapshotsDeleted imageId (device :: l)).
  { intros l. rewrite !snapshotsDeleted_cons. simpl. rewrite app_nil_r. reflexivity. }
  inversion Hrest as [ | before d after sid e Hdev Hd | before d after Hdev Hd]; subst.
  - rewrite Hcons. apply snapshots_deleted.
  - rewrite app_assoc, Hcons.
    apply (snapshot_failed imageId _ (device :: before) d after sid e);
      [reflexivity | exact Hd].
  - rewrite Hcons.
    apply (snapshot_missing imageId _ (device :: before) d after);
      [reflexivity | exact Hd].
Qed.

Lemma deleteSnapshots_run imageId devices : forall (c : Conn) fl c' tr,
  deleteSnapshots (Artifact := Artifact) imageId devices c = (fl, c', tr) ->
  SnapshotsOutcome imageId devices fl tr.
Proof.
  induction devices as [|device rest IH]; intros c fl c' tr Hrun; simpl in Hrun.
  - injection Hrun as <- <- <-. apply snapshots_deleted.
  - destruct (ec2.Ebs device) as [[[snapshotId|]]|] eqn:Hebs.
    + run_statements in Hrun.
      destruct (ec2iface.DeleteSnapshot snapshotId c) as [[e|] c1] eqn:Hcall.
      * injection Hrun as <- <- <-.
        apply (snapshot_failed imageId (device :: rest) [] device rest snapshotId e);
          [reflexivity | exact Hebs].
      * destruct (deleteSnapshots imageId rest c1) as [[fl2 c2] tr2] eqn:Hrest.
        injection Hrun as <- <- <-. apply IH in Hrest.
        eapply with_events; [apply (SnapshotsOutcome_cons _ device), Hrest|].
        rewrite snapshotsDeleted_cons, Hebs. reflexivity.
    + run_statements in Hrun. injection Hrun as <- <- <-.
      apply (snapshot_missing imageId (device :: rest) [] device rest);
        [reflexivity | exact Hebs].
    + apply IH in Hrun.
      eapply with_events; [apply (SnapshotsOutcome_cons _ device), Hrun|].
      rewrite snapshotsDeleted_cons, Hebs. reflexivity.
Qed.

Lemma deleteImage_run image : forall (c : Conn) fl c' tr,
  deleteImage (Artifact := Artifact) image c = (fl, c', tr) ->
  ImageOutcome image fl tr.
Proof.
  intros c fl c' tr Hrun. unfold deleteImage in Hrun.
  destruct (ec2.ImageId image) as [imageId|] eqn:Hid.
  - run_statements in Hrun.
    destruct (ec2iface.DeregisterImage imageId c) as [[e|] c1] eqn:Hcall.
    + injection Hrun as <- <- <-. apply (deregister_failed image imageId e Hid).
    + destruct (deleteSnapshots imageId (ec2.BlockDeviceMappings image) c1)
        as [[fl2 c2] tr2] eqn:Hsnap.
      injection Hrun as <- <- <-. apply deleteSnapshots_run in Hsnap.
      destruct (classic_next fl2) as [->|Hstop].
      * inversion Hsnap; subst.
        eapply with_events; [apply (image_deleted image imageId Hid)|].
        unfold imageDeleted. rewrite Hid. reflexivity.
      * apply (snapshots_stopped image imageId fl2 tr2 Hid Hsnap Hstop).
  - run_statements in Hrun. injection Hrun as <- <- <-.
    apply (image_without_id image Hid).
Qed.

Lemma LoopOutcome_cons image rest fl tr :
  is_Some (ec2.ImageId image) ->
  LoopOutcome rest fl tr ->
  LoopOutcome (image :: rest) fl (imageDeleted image ++ tr).
Proof.
  intros Hid Hrest.
  inversion Hrest as [Hall | done stopped later fl' tr' Himages Hdone Hstopped Hfl]; subst.
  - apply (loop_finished (image :: rest)). constructor; assumption.
  - rewrite app_assoc.
    apply (loop_stopped _ (image :: done) stopped later fl tr');
      [reflexivity | constructor; assumption | assumption | assumption].
Qed.

Lemma deleteImages_run keepReleases images : forall i (c : Conn) fl c' tr,
  0 <= i ->
  deleteImages (Artifact := Artifact) keepReleases i images c = (fl, c', tr) ->
  LoopOutcome (deletionSet (keepReleases - i) images) fl tr.
Proof.
  unfold deletionSet.
  induction images as [|image rest IH]; intros i c fl c' tr Hi Hrun; simpl in Hrun.
  - injection Hrun as <- <- <-. rewrite skipn_nil.
    apply (loop_finished []). constructor.
  - destruct (i <? keepReleases) eqn:Hskip.
    + apply Z.ltb_lt in Hskip. apply IH in Hrun; [|lia].
      replace (Z.to_nat (keepReleases - i))
        with (S (Z.to_nat (keepReleases - (i + 1)))) by lia.
      exact Hrun.
    + apply Z.ltb_ge in Hskip.
      replace (Z.to_nat (keepReleases - i)) with O by lia. simpl.
      unfold bind in Hrun.
      destruct (deleteImage image c) as [[fl1 c1] tr1] eqn:Hbody.
      apply deleteImage_run in Hbody.
      destruct fl1 as [[]|r|msg].
      * destruct (deleteImages keepReleases (i + 1) rest c1) as [[fl2 c2] tr2] eqn:Hrest.
        injection Hrun as <- <- <-. apply IH in Hrest; [|lia].
        replace (Z.to_nat (keepReleases - (i + 1))) with O in Hrest by lia.
        simpl in Hrest.
        inversion Hbody as [imageId Hid | | | imageId fl' tr' Hid Hsnap Hfl]; subst.
        -- apply LoopOutcome_cons; [rewrite Hid; eauto | exact Hrest].
        -- congruence.
      * injection Hrun as <- <- <-.
        apply (loop_stopped _ [] image rest (Return r) tr1);
          [reflexivity | constructor | exact Hbody | discriminate].
      * injection Hrun as <- <- <-.
        apply (loop_stopped _ [] image rest (Panic msg) tr1);
          [reflexivity | constructor | exact Hbody | discriminate].
Qed.

Lemma Ending_app t0 fl tr : Forall quiet t0 -> Ending fl tr -> Ending fl (t0 ++ tr).
Proof.
  intros H0 Hend. destruct Hend as [fl tr Hfl Htr | e tr ev Htr Hev Hcall].
  - apply ends_quiet; [exact Hfl | apply Forall_app; split; assumption].
  - rewrite app_assoc. apply ends_failed; [|assumption|assumption].
    apply Forall_app; split; assumption.
Qed.

Lemma snapshotsDeleted_quiet imageId devices :
  Forall quiet (snapshotsDeleted imageId devices).
Proof.
  induction devices as [|device rest IH]; [constructor|].
  rewrite snapshotsDeleted_cons. apply Forall_app. split; [|exact IH].
  destruct (ec2.Ebs device) as [[[snapshotId|]]|]; repeat constructor.
Qed.

Lemma imageDeleted_quiet image : Forall quiet (imageDeleted image).
Proof.
  unfold imageDeleted. destruct (ec2.ImageId image) as [imageId|]; [|constructor].
  simpl. repeat constructor. apply snapshotsDeleted_quiet.
Qed.

Lemma imagesDeleted_quiet images : Forall quiet (flat_map imageDeleted images).
Proof.
  induction images as [|image rest IH]; simpl; [constructor|].
  apply Forall_app. split; [apply imageDeleted_quiet | exact IH].
Qed.

Lemma SnapshotsOutcome_ending imageId devices fl tr :
  SnapshotsOutcome imageId devices fl tr -> Ending fl tr.
Proof.
  intros [ | before device after snapshotId e _ _ | before device after _ _].
  - apply ends_quiet; [discriminate | apply snapshotsDeleted_quiet].
  - set (line := LogLine _). eapply (with_events (Ending _)).
    + apply (ends_failed e (snapshotsDeleted imageId before ++ [line])
               (CallDeleteSnapshot snapshotId (Some e))); [|reflexivity|reflexivity].
      apply Forall_app. split; [apply snapshotsDeleted_quiet | repeat constructor].
    + rewrite <- app_assoc. reflexivity.
  - apply ends_quiet; [discriminate | apply snapshotsDeleted_quiet].
Qed.

Lemma ImageOutcome_ending image fl tr : ImageOutcome image fl tr -> Ending fl tr.
Proof.
  intros [imageId _ | _ | imageId e _ | imageId fl' tr' _ Hsnap _].
  - apply ends_quiet; [discriminate | apply imageDeleted_quiet].
  - apply ends_quiet; [discriminate | constructor].
  - apply (ends_failed e [_; _]); [repeat constructor | reflexivity | reflexivity].
  - apply SnapshotsOutcome_ending in Hsnap.
    set (line := LogLine _). eapply (with_events (Ending _)).
    + apply (Ending_app (deregisterAttempt imageId None ++ [line])); [|exact Hsnap].
      repeat constructor.
    + rewrite <- app_assoc. reflexivity.
Qed.

Lemma LoopOutcome_ending images fl tr : LoopOutcome images fl tr -> Ending fl tr.
Proof.
  intros [_ | done image later fl' tr' _ _ Himage _].
  - apply ends_quiet; [discriminate | apply imagesDeleted_quiet].
  - apply Ending_app; [apply imagesDeleted_quiet|].
    eapply ImageOutcome_ending, Himage.
Qed.

(** A failed call in a list whose failures can only be its last element
    is that last element. *)
Lemma failure_is_last (tr : list Event) ev before ev' after :
  Forall quiet tr -> failure ev' <> None ->
  before ++ ev' :: after = tr ++ [ev] ->
  before = tr /\ ev' = ev /\ after = [].
Proof.
  revert before. induction tr as [|x tr IH]; intros before Hq Hfail Heq.
  - destruct before as [|b before]; simpl in Heq.
    + injection Heq as -> ->. auto.
    + injection Heq as _ Heq. destruct before; discriminate.
  - apply Forall_cons_1 in Hq as [Hx Hq].
    destruct before as [|b before]; simpl in Heq.
    + injection Heq as -> _. congruence.
    + injection Heq as -> Heq. destruct (IH before Hq Hfail Heq) as (-> & -> & ->).
      auto.
Qed.

Lemma quiet_no_failure (tr : list Event) before ev after :
  Forall quiet tr -> tr = before ++ ev :: after -> failure ev = None.
Proof.
  intros Hq ->. apply Forall_app in Hq as [_ Hq].
  apply Forall_cons_1 in Hq as [Hev _]. exact Hev.
Qed.

(** What an ending says of a failed call found anywhere in the events. *)
Lemma Ending_failure fl tr before ev after e :
  Ending fl tr -> tr = before ++ ev :: after -> failure ev = Some e ->
  after = [] /\ fl = Return (None, true, Some e) /\ Forall quiet before.
Proof.
  intros Hend Heq Hfail.
  destruct Hend as [fl tr Hfl Htr | e' tr ev' Htr Hev Hcall].
  - pose proof (quiet_no_failure _ _ _ _ Htr Heq). congruence.
  - symmetry in Heq. apply failure_is_last in Heq; [|exact Htr|congruence].
    destruct Heq as (-> & -> & ->). split; [reflexivity|].
    split; [congruence | exact Htr].
Qed.

(** What an ending says of an error returned. *)
Lemma Ending_returned fl tr a keep e :
  Ending fl tr -> fl = Return (a, keep, Some e) ->
  a = None /\ keep = true
  /\ exists before ev,
       tr = before ++ [ev] /\ failure ev = Some e /\ isDeleteCall ev = true
       /\ Forall quiet before.
Proof.
  intros Hend Hfl.
  destruct Hend as [fl tr Hnot Htr | e' tr ev' Htr Hev Hcall].
  - exfalso. eapply Hnot, Hfl.
  - injection Hfl as <- <- <-. repeat split. eauto 10.
Qed.

Lemma Ending_no_error fl tr a keep :
  Ending fl tr -> fl = Return (a, keep, None) -> False.
Proof.
  intros Hend Hfl. destruct Hend as [fl tr Hnot Htr | e' tr ev' Htr Hev Hcall].
  - eapply Hnot, Hfl.
  - discriminate.
Qed.

Lemma deregisterCalls_app t1 t2 :
  deregisterCalls (t1 ++ t2) = deregisterCalls t1 ++ deregisterCalls t2.
Proof. apply flat_map_app. Qed.

Lemma deregistered_app t1 t2 :
  deregistered (t1 ++ t2) = deregistered t1 ++ deregistered t2.
Proof. apply flat_map_app. Qed.

Lemma snapshotCalls_app t1 t2 :
  snapshotCalls (t1 ++ t2) = snapshotCalls t1 ++ snapshotCalls t2.
Proof. apply flat_map_app. Qed.

Lemma uiMessages_app t1 t2 : uiMessages (t1 ++ t2) = uiMessages t1 ++ uiMessages t2.
Proof. apply flat_map_app. Qed.

Lemma snapshotsDeleted_calls imageId devices :
  deregisterCalls (snapshotsDeleted imageId devices) = []
  /\ deregistered (snapshotsDeleted imageId devices) = []
  /\ uiMessages (snapshotsDeleted imageId devices) = []
  /\ snapshotCalls (snapshotsDeleted imageId devices) = deviceSnapshotIds devices.
Proof.
  induction devices as [|device rest (IH1 & IH2 & IH3 & IH4)]; [repeat split|].
  rewrite snapshotsDeleted_cons.
  rewrite deregisterCalls_app, deregistered_app, uiMessages_app, snapshotCalls_app.
  rewrite IH1, IH2, IH3, IH4. unfold deviceSnapshotIds. simpl.
  destruct (ec2.Ebs device) as [[[snapshotId|]]|]; repeat split.
Qed.

Lemma deviceSnapshotIds_app d1 d2 :
  deviceSnapshotIds (d1 ++ d2) = deviceSnapshotIds d1 ++ deviceSnapshotIds d2.
Proof. apply flat_map_app. Qed.

(** Whatever way the loop over the devices ends, it called
    [DeleteSnapshot] on the first snapshots of the image, in order, and
    nothing else. *)
Lemma SnapshotsOutcome_calls imageId devices
  (fl : @Flow Artifact unit) tr :
  SnapshotsOutcome imageId devices fl tr ->
  deregisterCalls tr = [] /\ deregistered tr = [] /\ uiMessages tr = []
  /\ exists rest, deviceSnapshotIds devices = snapshotCalls tr ++ rest.
Proof.
  intros [ | before device after snapshotId e -> Hd | before device after -> Hd].
  - destruct (snapshotsDeleted_calls imageId devices) as (H1 & H2 & H3 & H4).
    repeat split; try assumption. exists []. rewrite app_nil_r. symmetry. exact H4.
  - destruct (snapshotsDeleted_calls imageId before) as (H1 & H2 & H3 & H4).
    rewrite deregisterCalls_app, deregistered_app, uiMessages_app, snapshotCalls_app.
    rewrite H1, H2, H3, H4. repeat split.
    exists (deviceSnapshotIds after).
    change (device :: after) with ([device] ++ after).
    rewrite !deviceSnapshotIds_app, <- app_assoc. f_equal. f_equal.
    unfold deviceSnapshotIds. simpl. rewrite Hd. reflexivity.
  - destruct (snapshotsDeleted_calls imageId before) as (H1 & H2 & H3 & H4).
    repeat split; try assumption.
    exists (deviceSnapshotIds (device :: after)).
    rewrite deviceSnapshotIds_app, H4. reflexivity.
Qed.

Lemma imageDeleted_calls image imageId :
  ec2.ImageId image = Some imageId ->
  deregisterCalls (imageDeleted image) = [imageId]
  /\ deregistered (imageDeleted image) = [imageId]
  /\ uiMessages (imageDeleted image) = ["Deleting image: " ++ imageId]%string
  /\ snapshotCalls (imageDeleted image) = snapshotIds image.
Proof.
  intros Hid. unfold imageDeleted. rewrite Hid.
  destruct (snapshotsDeleted_calls imageId (ec2.BlockDeviceMappings image))
    as (H1 & H2 & H3 & H4).
  rewrite deregisterCalls_app, deregistered_app, uiMessages_app, snapshotCalls_app.
  simpl. fold (deregisterCalls (snapshotsDeleted imageId (ec2.BlockDeviceMappings image))).
  fold (deregistered (snapshotsDeleted imageId (ec2.BlockDeviceMappings image))).
  fold (uiMessages (snapshotsDeleted imageId (ec2.BlockDeviceMappings image))).
  fold (snapshotCalls (snapshotsDeleted imageId (ec2.BlockDeviceMappings image))).
  rewrite H1, H2, H3, H4. repeat split.
Qed.

Lemma imagesDeleted_calls images :
  Forall (fun image => is_Some (ec2.ImageId image)) images ->
  map Some (deregisterCalls (flat_map imageDeleted images)) = map ec2.ImageId images
  /\ map Some (deregistered (flat_map imageDeleted images)) = map ec2.ImageId images
  /\ uiMessages (flat_map imageDeleted images)
     = map (fun imageId => "Deleting image: " ++ imageId)%string
         (deregistered (flat_map imageDeleted images))
  /\ snapshotCalls (flat_map imageDeleted images) = flat_map snapshotIds images.
Proof.
  induction 1 as [|image rest [imageId Hid] _ (IH1 & IH2 & IH3 & IH4)]; [repeat split|].
  destruct (imageDeleted_calls image imageId Hid) as (H1 & H2 & H3 & H4).
  simpl. rewrite deregisterCalls_app, deregistered_app, uiMessages_app, snapshotCalls_app.
  rewrite H1, H2, H3, H4, IH3, IH4. simpl. rewrite IH1, IH2, Hid. repeat split.
Qed.

(** Whatever way the body of the loop ends for an image that has an
    identifier, it called [DeregisterImage] once, on it, and
    [DeleteSnapshot] on its first snapshots only. *)
Lemma ImageOutcome_calls image (fl : @Flow Artifact unit) tr imageId :
  ImageOutcome image fl tr -> ec2.ImageId image = Some imageId ->
  deregisterCalls tr = [imageId]
  /\ uiMessages tr = ["Deleting image: " ++ imageId]%string
  /\ exists rest, snapshotIds image = snapshotCalls tr ++ rest.
Proof.
  intros [i Hi | Hi | i e Hi | i fl' tr' Hi Hsnap _] Hid;
    rewrite Hid in Hi; try discriminate; injection Hi as <-.
  - destruct (imageDeleted_calls image imageId Hid) as (H1 & H2 & H3 & H4).
    repeat split; try assumption. exists []. rewrite app_nil_r. symmetry. exact H4.
  - repeat split. exists (snapshotIds image). reflexivity.
  - destruct (SnapshotsOutcome_calls _ _ _ _ Hsnap) as (H1 & H2 & H3 & rest & H4).
    rewrite deregisterCalls_app, uiMessages_app, snapshotCalls_app. simpl.
    fold (deregisterCalls tr'). fold (uiMessages tr'). fold (snapshotCalls tr').
    rewrite H1, H3. repeat split. exists rest. exact H4.
Qed.

Lemma deregisterCalls_In tr imageId err :
  In (CallDeregisterImage imageId err) tr -> In imageId (deregisterCalls tr).
Proof.
  intros Hin. unfold deregisterCalls. apply in_flat_map.
  exists (CallDeregisterImage imageId err). split; [exact Hin | left; reflexivity].
Qed.

Lemma snapshotCalls_In tr snapshotId err :
  In (CallDeleteSnapshot snapshotId err) tr -> In snapshotId (snapshotCalls tr).
Proof.
  intros Hin. unfold snapshotCalls. apply in_flat_map.
  exists (CallDeleteSnapshot snapshotId err). split; [exact Hin | left; reflexivity].
Qed.

Lemma announced_without_calls tr : deregisterCalls tr = [] -> announced tr.
Proof.
  intros Hnone before imageId err after ->.
  assert (Hin : In imageId (deregisterCalls (before ++ CallDeregisterImage imageId err :: after))).
  { apply (deregisterCalls_In _ imageId err), in_elt. }
  rewrite Hnone in Hin. destruct Hin.
Qed.

Lemma announced_app t1 t2 : announced t1 -> announced t2 -> announced (t1 ++ t2).
Proof.
  intros H1 H2 before imageId err after Heq.
  apply app_eq_app in Heq as [l [[-> Heq] | [-> ->]]].
  - destruct l as [|x l]; simpl in Heq.
    + destruct (H2 [] imageId err after) as [earlier Hearlier]; [symmetry; exact Heq|].
      destruct earlier; discriminate.
    + injection Heq as <- ->.
      destruct (H1 before imageId err l eq_refl) as [earlier ->]. eauto.
  - destruct (H2 l imageId err after eq_refl) as [earlier ->].
    exists (t1 ++ earlier). rewrite app_assoc. reflexivity.
Qed.

Lemma announced_attempt imageId err : announced (deregisterAttempt imageId err).
Proof.
  intros before i err' after Heq. unfold deregisterAttempt in Heq.
  destruct before as [|a [|b [|c before]]]; try discriminate.
  - injection Heq as <- <- <- _. exists []. reflexivity.
  - injection Heq as _ _ _ Heq. destruct before; discriminate.
Qed.

Lemma announced_imageDeleted image : announced (imageDeleted image).
Proof.
  unfold imageDeleted. destruct (ec2.ImageId image) as [imageId|].
  - apply announced_app; [apply announced_attempt|].
    apply announced_without_calls. simpl.
    apply (snapshotsDeleted_calls imageId (ec2.BlockDeviceMappings image)).
  - apply announced_without_calls. reflexivity.
Qed.

Lemma announced_imagesDeleted images : announced (flat_map imageDeleted images).
Proof.
  induction images as [|image rest IH]; simpl.
  - apply announced_without_calls. reflexivity.
  - apply announced_app; [apply announced_imageDeleted | exact IH].
Qed.

Lemma announced_ImageOutcome image (fl : @Flow Artifact unit) tr :
  ImageOutcome image fl tr -> announced tr.
Proof.
  intros [i Hi | Hi | i e Hi | i fl' tr' Hi Hsnap _].
  - apply announced_imageDeleted.
  - apply announced_without_calls. reflexivity.
  - apply announced_attempt.
  - apply announced_app; [apply announced_attempt|].
    apply announced_without_calls. simpl.
    apply (SnapshotsOutcome_calls _ _ _ _ Hsnap).
Qed.

Lemma announced_LoopOutcome images (fl : @Flow Artifact unit) tr :
  LoopOutcome images fl tr -> announced tr.
Proof.
  intros [_ | done image later fl' tr' _ _ Himage _].
  - apply announced_imagesDeleted.
  - apply announced_app; [apply announced_imagesDeleted|].
    eapply announced_ImageOutcome, Himage.
Qed.

Lemma split_after_prefix (head tr before : list Event) ev after :
  head ++ tr = before ++ ev :: after -> ~ In ev head ->
  exists before', before = head ++ before' /\ tr = before' ++ ev :: after.
Proof.
  revert before. induction head as [|x head IH]; intros before Heq Hnot; simpl in *.
  - eauto.
  - destruct before as [|b before]; simpl in Heq.
    + injection Heq as -> _. exfalso. apply Hnot. left. reflexivity.
    + injection Heq as -> Heq. destruct (IH before Heq) as (before' & -> & ->).
      * intros Hin. apply Hnot. right. exact Hin.
      * eauto.
Qed.

Lemma cascade_nil image : cascade image [].
Proof.
  split; [|split].
  - intros before snapshotId err after Heq. destruct before; discriminate.
  - intros imageId e [].
  - intros imageId [].
Qed.

Lemma cascade_deregister_failed image imageId e :
  ec2.ImageId image = Some imageId ->
  cascade image (deregisterAttempt imageId (Some e)).
Proof.
  intros Hid. split; [|split].
  - intros before snapshotId err after Heq.
    assert (Hin : In (CallDeleteSnapshot snapshotId err)
                    (deregisterAttempt imageId (Some e)))
      by (rewrite Heq; apply in_elt).
    simpl in Hin. destruct Hin as [Hin|[Hin|[Hin|[]]]]; discriminate.
  - reflexivity.
  - intros i [<-|[]]. exact Hid.
Qed.

Lemma cascade_deregistered image imageId line tr :
  ec2.ImageId image = Some imageId ->
  deregisterCalls tr = [] ->
  (exists rest, snapshotIds image = snapshotCalls tr ++ rest) ->
  cascade image (deregisterAttempt imageId None ++ LogLine line :: tr).
Proof.
  intros Hid Hnone [rest Hsnaps]. split; [|split].
  - intros before snapshotId err after Heq.
    change (deregisterAttempt imageId None ++ LogLine line :: tr)
      with ((deregisterAttempt imageId None ++ [LogLine line]) ++ tr) in Heq.
    apply split_after_prefix in Heq as (before' & -> & ->).
    + exists imageId. split; [exact Hid|]. split.
      * apply in_or_app. left. simpl. auto.
      * rewrite Hsnaps. apply in_or_app. left.
        apply (snapshotCalls_In _ snapshotId err), in_elt.
    + simpl. intros [Hin|[Hin|[Hin|[Hin|[]]]]]; discriminate.
  - intros i e Hin. apply in_app_or in Hin as [Hin|Hin].
    + simpl in Hin. destruct Hin as [Hin|[Hin|[Hin|[]]]]; discriminate.
    + destruct Hin as [Hin|Hin]; [discriminate|].
      apply deregisterCalls_In in Hin. rewrite Hnone in Hin. destruct Hin.
  - intros i Hin. rewrite deregisterCalls_app in Hin. simpl in Hin.
    fold (deregisterCalls tr) in Hin. rewrite Hnone in Hin.
    destruct Hin as [<-|[]]. exact Hid.
Qed.

Lemma cascade_imageDeleted image :
  is_Some (ec2.ImageId image) -> cascade image (imageDeleted image).
Proof.
  intros [imageId Hid]. unfold imageDeleted. rewrite Hid.
  destruct (snapshotsDeleted_calls imageId (ec2.BlockDeviceMappings image))
    as (H1 & _ & _ & H4).
  apply cascade_deregistered; [exact Hid | exact H1|].
  exists []. rewrite app_nil_r. symmetry. exact H4.
Qed.

Lemma cascade_ImageOutcome image (fl : @Flow Artifact unit) tr :
  ImageOutcome image fl tr -> cascade image tr.
Proof.
  intros [i Hi | Hi | i e Hi | i fl' tr' Hi Hsnap _].
  - apply cascade_imageDeleted. rewrite Hi. eauto.
  - apply cascade_nil.
  - apply cascade_deregister_failed, Hi.
  - destruct (SnapshotsOutcome_calls _ _ _ _ Hsnap) as (H1 & _ & _ & H4).
    apply cascade_deregistered; assumption.
Qed.

Lemma concat_imagesDeleted images :
  concat (map snd (map (fun image => (image, imageDeleted image)) images))
  = flat_map imageDeleted images.
Proof.
  induction images as [|image rest IH]; simpl; [reflexivity|]. rewrite IH. reflexivity.
Qed.

Lemma fst_imagesDeleted images :
  map fst (map (fun image => (image, imageDeleted image)) images) = images.
Proof.
  induction images as [|image rest IH]; simpl; [reflexivity|]. rewrite IH. reflexivity.
Qed.


Lemma deleteImages_negative keepReleases images :
  keepReleases < 0 -> forall i (c : Conn),
  0 <= i ->
  deleteImages (Artifact := Artifact) keepReleases i images c
  = deleteImages 0 i images c.
Proof.
  intros Hneg. induction images as [|image rest IH]; intros i c Hi; simpl.
  - reflexivity.
  - replace (i <? keepReleases) with false by (symmetry; apply Z.ltb_ge; lia).
    replace (i <? 0) with false by (symmetry; apply Z.ltb_ge; lia).
    unfold bind. destruct (deleteImage image c) as [[[[]|r|msg] c1] tr1];
      [|reflexivity|reflexivity].
    rewrite IH by lia. reflexivity.
Qed.


End Loops.

(** * The claims *)

Section Claims.

Context {Conn : Type} `{!ec2iface.EC2API Conn} `{!time.API} {Artifact : Type}.
Variable newConn : string -> string -> string -> Conn.
Implicit Types (fl : @Flow Artifact unit) (tr : list Event).

(** The three ways a run goes, by the answer to [DescribeImages] and the
    result of the sort. *)
Lemma PostProcess_run (p : PostProcessor Conn) (artifact : Artifact) :
  let r := PostProcess newConn p artifact in
  match listing newConn p with
  | inr e =>
      returned r = Done (None, true, Some e)
      /\ events r = preamble p ++ [CallDescribeImages (describeInput (config p)) (Some e)]
  | inl out =>
      match sortImages (ec2.Images out) with
      | Panicked msg =>
          returned r = Panicked msg
          /\ events r = preamble p ++ [CallDescribeImages (describeInput (config p)) None]
      | Done (_, sorted) =>
          exists fl tr,
            LoopOutcome (deletionSet (KeepReleases (config p)) sorted) fl tr
            /\ returned r = returnedFor artifact fl
            /\ events r = listed p ++ tr
      end
  end.
Proof.
  unfold listing, listed, preamble, connectionUsed, PostProcess, describeAndDelete.
  unfold bind, log_Println, emit, call_DescribeImages, lift, return_.
  fold (describeInput (config p)).
  destruct (ec2conn p) as [conn|]; simpl.
  - destruct (ec2iface.DescribeImages _ conn) as [[out|e] c1]; simpl.
    + destruct (sortImages (ec2.Images out)) as [[err sorted]|msg]; simpl.
      * destruct (deleteImages _ 0 sorted c1) as [[fl c2] tr] eqn:Hloop.
        apply deleteImages_run in Hloop; [|lia]. rewrite Z.sub_0_r in Hloop.
        exists fl, tr. split; [exact Hloop|].
        destruct fl as [[]|r|msg]; simpl; rewrite ?app_nil_r; split; reflexivity.
      * split; reflexivity.
    + split; reflexivity.
  - destruct (ec2iface.DescribeImages _ _) as [[out|e] c1]; simpl.
    + destruct (sortImages (ec2.Images out)) as [[err sorted]|msg]; simpl.
      * destruct (deleteImages _ 0 sorted c1) as [[fl c2] tr] eqn:Hloop.
        apply deleteImages_run in Hloop; [|lia]. rewrite Z.sub_0_r in Hloop.
        exists fl, tr. split; [exact Hloop|].
        destruct fl as [[]|r|msg]; simpl; rewrite ?app_nil_r; split; reflexivity.
      * split; reflexivity.
    + split; reflexivity.
Qed.

Lemma preamble_quiet (p : PostProcessor Conn) :
  Forall (fun ev => failure ev = None) (preamble p).
Proof. unfold preamble. destruct (ec2conn p); repeat constructor. Qed.

Lemma listed_quiet (p : PostProcessor Conn) :
  Forall (fun ev => failure ev = None) (listed p).
Proof.
  unfold listed. apply Forall_app. split; [apply preamble_quiet | repeat constructor].
Qed.

Lemma listed_calls (p : PostProcessor Conn) :
  deregisterCalls (listed p) = [] /\ deregistered (listed p) = []
  /\ uiMessages (listed p) = [] /\ snapshotCalls (listed p) = []
  /\ Forall (fun ev => isDeleteCall ev = false) (listed p).
Proof.
  unfold listed, preamble. destruct (ec2conn p); repeat split; repeat constructor.
Qed.

Lemma announced_PostProcess (p : PostProcessor Conn) (artifact : Artifact) :
  announced (events (PostProcess newConn p artifact)).
Proof.
  pose proof (PostProcess_run p artifact) as Hrun.
  cbv zeta in Hrun.
  assert (Hpre : deregisterCalls (preamble p) = []).
  { unfold preamble. destruct (ec2conn p); reflexivity. }
  destruct (listing newConn p) as [out|e0].
  - destruct (sortImages (ec2.Images out)) as [[err sorted]|msg].
    + destruct Hrun as (fl & tr & Hloop & _ & ->).
      apply announced_app; [|eapply announced_LoopOutcome, Hloop].
      apply announced_without_calls. unfold listed.
      rewrite deregisterCalls_app, Hpre. reflexivity.
    + destruct Hrun as [_ ->]. apply announced_without_calls.
      rewrite deregisterCalls_app, Hpre. reflexivity.
  - destruct Hrun as [_ ->]. apply announced_without_calls.
    rewrite deregisterCalls_app, Hpre. reflexivity.
Qed.

(** A failed call is the last event of the run, and its error is what the
    run returns. *)
Lemma PostProcess_failure (p : PostProcessor Conn) (artifact : Artifact)
  before ev after e :
  events (PostProcess newConn p artifact) = before ++ ev :: after ->
  failure ev = Some e ->
  after = []
  /\ returned (PostProcess newConn p artifact) = Done (None, true, Some e)
  /\ Forall (fun ev => failure ev = None) before.
Proof.
  intros Hev Hfail. pose proof (PostProcess_run p artifact) as Hrun.
  cbv zeta in Hrun. destruct (listing newConn p) as [out|e0].
  - destruct (sortImages (ec2.Images out)) as [[err sorted]|msg].
    + destruct Hrun as (fl & tr & Hloop & Hret & Htr).
      apply LoopOutcome_ending in Hloop.
      apply (Ending_app (listed p)) in Hloop; [|apply listed_quiet].
      rewrite <- Htr, Hev in Hloop.
      destruct (Ending_failure _ _ _ _ _ _ Hloop eq_refl Hfail) as (-> & -> & Hq).
      rewrite Hret. auto.
    + destruct Hrun as [_ Htr]. rewrite Hev in Htr.
      assert (Hq : Forall (fun ev => failure ev = None)
                     (preamble p
                      ++ [CallDescribeImages (describeInput (config p)) None])).
      { apply Forall_app. split; [apply preamble_quiet | repeat constructor]. }
      symmetry in Htr. pose proof (quiet_no_failure _ _ _ _ Hq Htr). congruence.
  - destruct Hrun as [Hret Htr]. rewrite Hev in Htr.
    apply failure_is_last in Htr; [|apply preamble_quiet|congruence].
    destruct Htr as (-> & -> & ->). simpl in Hfail. injection Hfail as ->.
    split; [reflexivity|]. split; [exact Hret | apply preamble_quiet].
Qed.

(** An error returned is the error of the call the events end with. *)
Lemma PostProcess_error (p : PostProcessor Conn) (artifact : Artifact) a keep e :
  returned (PostProcess newConn p artifact) = Done (a, keep, Some e) ->
  a = None /\ keep = true
  /\ exists before ev,
       events (PostProcess newConn p artifact) = before ++ [ev]
       /\ failure ev = Some e.
Proof.
  intros Hret. pose proof (PostProcess_run p artifact) as Hrun.
  cbv zeta in Hrun. destruct (listing newConn p) as [out|e0].
  - destruct (sortImages (ec2.Images out)) as [[err sorted]|msg].
    + destruct Hrun as (fl & tr & Hloop & Hret' & Htr).
      rewrite Hret' in Hret. apply LoopOutcome_ending in Hloop.
      destruct fl as [[]|r|msg]; simpl in Hret; try discriminate.
      injection Hret as ->.
      destruct (Ending_returned _ _ _ _ _ Hloop eq_refl)
        as (-> & -> & before & ev & -> & Hfail & _ & _).
      split; [reflexivity|]. split; [reflexivity|].
      exists (listed p ++ before), ev. rewrite Htr, app_assoc. auto.
    + destruct Hrun as [Hret' _]. congruence.
  - destruct Hrun as [Hret' Htr]. rewrite Hret' in Hret. injection Hret as <- <- <-.
    split; [reflexivity|]. split; [reflexivity|]. eauto.
Qed.

(** A run that returns without error went through the whole deletion
    set, and every call succeeded. *)
Lemma PostProcess_success (p : PostProcessor Conn) (artifact : Artifact) a keep :
  returned (PostProcess newConn p artifact) = Done (a, keep, None) ->
  a = Some artifact /\ keep = true
  /\ exists out sorted,
       listing newConn p = inl out
       /\ sortImages (ec2.Images out) = Done (None, sorted)
       /\ Forall (fun image => is_Some (ec2.ImageId image))
            (deletionSet (KeepReleases (config p)) sorted)
       /\ events (PostProcess newConn p artifact)
          = listed p ++ flat_map imageDeleted (deletionSet (KeepReleases (config p)) sorted).
Proof.
  intros Hret. pose proof (PostProcess_run p artifact) as Hrun.
  cbv zeta in Hrun. destruct (listing newConn p) as [out|e0].
  - destruct (sortImages (ec2.Images out)) as [[err sorted]|msg] eqn:Hsort.
    + destruct (sortImages_Done _ _ _ Hsort) as (-> & _ & _).
      destruct Hrun as (fl & tr & Hloop & Hret' & Htr).
      rewrite Hret' in Hret. destruct fl as [[]|r|msg]; simpl in Hret.
      * injection Hret as <- <-. split; [reflexivity|]. split; [reflexivity|].
        exists out, sorted. split; [reflexivity|]. split; [exact Hsort|].
        inversion Hloop as [Hall | done image later fl tail Hdel Hdone Himage Hstop];
          subst; [|congruence].
        split; [exact Hall | exact Htr].
      * injection Hret as ->. apply LoopOutcome_ending in Hloop.
        destruct (Ending_no_error _ _ _ _ Hloop eq_refl).
      * discriminate.
    + destruct Hrun as [Hret' _]. congruence.
  - destruct Hrun as [Hret' _]. congruence.
Qed.

(** When the retention count covers the whole listing the run deletes
    nothing and succeeds, whatever the provider would have answered. *)
Lemma keeping_all_issues_no_call (p : PostProcessor Conn) (artifact : Artifact)
  out err sorted :
  listing newConn p = inl out ->
  sortImages (ec2.Images out) = Done (err, sorted) ->
  Z.of_nat (length (ec2.Images out)) <= KeepReleases (config p) ->
  returned (PostProcess newConn p artifact) = Done (Some artifact, true, None)
  /\ events (PostProcess newConn p artifact) = listed p.
Proof.
  intros Hlist Hsort Hkeep. pose proof (PostProcess_run p artifact) as Hrun.
  cbv zeta in Hrun. rewrite Hlist, Hsort in Hrun.
  destruct Hrun as (fl & tr & Hloop & -> & ->).
  destruct (sortImages_Done _ _ _ Hsort) as (_ & Hperm & _).
  apply Permutation_length in Hperm.
  unfold deletionSet in Hloop. rewrite skipn_all2 in Hloop by lia.
  inversion Hloop as [Hall | done image later fl' tail Hdel Hdone Himage Hstop]; subst.
  - simpl. rewrite app_nil_r. split; reflexivity.
  - destruct done; discriminate.
Qed.

(** C1. For every listing and every [keepCount >= 0], a run that
    completes without provider error has deleted exactly
    [max(0, len(images) - keepCount)] images, those after the
    [keepCount] first of the sorted listing; the images retained are
    [min(keepCount, len(images))] images none of which is older than a
    deleted one; and when [keepCount >= len(images)] the run issues no
    [DeregisterImage] and no [DeleteSnapshot] call. *)
Theorem retention_keeps_newest (p : PostProcessor Conn) (artifact : Artifact) a keep :
  0 <= KeepReleases (config p) ->
  returned (PostProcess newConn p artifact) = Done (a, keep, None) ->
  exists out sorted,
    listing newConn p = inl out
    /\ sortImages (ec2.Images out) = Done (None, sorted)
    /\ Permutation (ec2.Images out)
         (retained (KeepReleases (config p)) sorted
          ++ deletionSet (KeepReleases (config p)) sorted)
    /\ length (retained (KeepReleases (config p)) sorted)
       = Nat.min (Z.to_nat (KeepReleases (config p))) (length (ec2.Images out))
    /\ (forall kept deleted,
           In kept (retained (KeepReleases (config p)) sorted) ->
           In deleted (deletionSet (KeepReleases (config p)) sorted) ->
           notNewer deleted kept)
    /\ map Some (deregistered (events (PostProcess newConn p artifact)))
       = map ec2.ImageId (deletionSet (KeepReleases (config p)) sorted)
    /\ Z.of_nat (length (deregistered (events (PostProcess newConn p artifact))))
       = Z.max 0 (Z.of_nat (length (ec2.Images out)) - KeepReleases (config p))
    /\ (Z.of_nat (length (ec2.Images out)) <= KeepReleases (config p) ->
        Forall (fun ev => isDeleteCall ev = false)
          (events (PostProcess newConn p artifact))).
Proof.
  intros Hkeep Hret.
  destruct (PostProcess_success p artifact a keep Hret)
    as (_ & _ & out & sorted & Hlist & Hsort & Hall & Hev).
  exists out, sorted. split; [exact Hlist|]. split; [exact Hsort|].
  destruct (sortImages_Done _ _ _ Hsort) as (_ & Hperm & Hsorted).
  pose proof (Permutation_length Hperm) as Hlen.
  destruct (listed_calls p) as (_ & Hl2 & _ & _ & Hl5).
  destruct (imagesDeleted_calls _ Hall) as (_ & Hd2 & _ & _).
  assert (Hdereg : map Some (deregistered (events (PostProcess newConn p artifact)))
                   = map ec2.ImageId (deletionSet (KeepReleases (config p)) sorted)).
  { rewrite Hev, deregistered_app, Hl2. exact Hd2. }
  unfold retained, deletionSet in *.
  split; [rewrite firstn_skipn; exact Hperm|].
  split; [rewrite length_firstn, Hlen; reflexivity|].
  split.
  { intros kept deleted Hk Hd.
    apply (StronglySorted_app_inv (fun a b => notNewer b a)
             (firstn (Z.to_nat (KeepReleases (config p))) sorted)
             (skipn (Z.to_nat (KeepReleases (config p))) sorted));
      [rewrite firstn_skipn; exact Hsorted | exact Hk | exact Hd]. }
  split; [exact Hdereg|].
  split.
  { apply (f_equal (@length _)) in Hdereg. rewrite !length_map in Hdereg.
    rewrite Hdereg, length_skipn, Hlen. lia. }
  intros Hall_kept. rewrite Hev.
  rewrite skipn_all2 by lia. simpl. rewrite app_nil_r. exact Hl5.
Qed.


(** C3. The snapshots of an image are deleted only after its
    [DeregisterImage] call succeeded, and not at all when that call
    failed. Once the listing is obtained and sorted, the events of the
    loop are, image after image along the deletion set, the events of
    one image each; in the events of an image every [DeleteSnapshot] call
    is on one of its snapshots and has a successful [DeregisterImage]
    call on that image before it, and a failed [DeregisterImage] call
    leaves no [DeleteSnapshot] call among them. *)
Theorem snapshots_after_successful_deregister
  (p : PostProcessor Conn) (artifact : Artifact) out err sorted :
  listing newConn p = inl out ->
  sortImages (ec2.Images out) = Done (err, sorted) ->
  exists (segments : list (ec2.Image * list Event)) later,
    events (PostProcess newConn p artifact) = listed p ++ concat (map snd segments)
    /\ deletionSet (KeepReleases (config p)) sorted = map fst segments ++ later
    /\ Forall (fun segment => cascade (fst segment) (snd segment)) segments.
Proof.
  intros Hlist Hsort. pose proof (PostProcess_run p artifact) as Hrun.
  cbv zeta in Hrun. rewrite Hlist, Hsort in Hrun.
  destruct Hrun as (fl & tr & Hloop & _ & ->).
  destruct Hloop as [Hall | done image later fl tail Hdel Hdone Himage Hstop].
  - exists (map (fun image => (image, imageDeleted image))
              (deletionSet (KeepReleases (config p)) sorted)), [].
    rewrite concat_imagesDeleted, fst_imagesDeleted, app_nil_r.
    split; [reflexivity|]. split; [reflexivity|].
    apply Forall_map. simpl. eapply Forall_impl; [exact Hall|].
    intros image. apply cascade_imageDeleted.
  - exists (map (fun image => (image, imageDeleted image)) done ++ [(image, tail)]), later.
    rewrite !map_app, concat_app, concat_imagesDeleted, fst_imagesDeleted.
    simpl. rewrite app_nil_r, <- app_assoc. split; [reflexivity|].
    split; [rewrite <- app_assoc; exact Hdel|].
    apply Forall_app. split.
    + apply Forall_map. simpl. eapply Forall_impl; [exact Hdone|].
      intros image'. apply cascade_imageDeleted.
    + constructor; [|constructor]. simpl. eapply cascade_ImageOutcome, Himage.
Qed.

(** C4. On the first failing [DeregisterImage] or [DeleteSnapshot] call
    the run returns that error at once. If a deleting call [ev] of the
    run failed with [e], then no event follows it (no retry, no
    continuation, no rollback), no call before it failed, the run
    returns [(nil, true, e)], and the events are those of the complete
    deletion of the images [done] that come first in the deletion set,
    followed by the events [tail] of the attempt on the next image, which
    hold one [DeregisterImage] call, on that image, and [DeleteSnapshot]
    calls on its first snapshots only: the images [later] in the deletion
    set are not touched. *)
Theorem abort_on_first_failure (p : PostProcessor Conn) (artifact : Artifact)
  before ev after e :
  events (PostProcess newConn p artifact) = before ++ ev :: after ->
  isDeleteCall ev = true ->
  failure ev = Some e ->
  after = []
  /\ returned (PostProcess newConn p artifact) = Done (None, true, Some e)
  /\ Forall (fun ev => failure ev = None) before
  /\ exists out sorted done image later tail,
       listing newConn p = inl out
       /\ sortImages (ec2.Images out) = Done (None, sorted)
       /\ deletionSet (KeepReleases (config p)) sorted = done ++ image :: later
       /\ before ++ [ev] = listed p ++ flat_map imageDeleted done ++ tail
       /\ map Some (deregistered (flat_map imageDeleted done)) = map ec2.ImageId done
       /\ snapshotCalls (flat_map imageDeleted done) = flat_map snapshotIds done
       /\ map Some (deregisterCalls tail) = [ec2.ImageId image]
       /\ exists rest, snapshotIds image = snapshotCalls tail ++ rest.
Proof.
  intros Hev Hcall Hfail.
  destruct (PostProcess_failure p artifact before ev after e Hev Hfail)
    as (-> & Hret & Hq).
  split; [reflexivity|]. split; [exact Hret|]. split; [exact Hq|].
  pose proof (PostProcess_run p artifact) as Hrun.
  cbv zeta in Hrun. destruct (listing newConn p) as [out|e0].
  - destruct (sortImages (ec2.Images out)) as [[err sorted]|msg] eqn:Hsort.
    + destruct (sortImages_Done _ _ _ Hsort) as (-> & _ & _).
      destruct Hrun as (fl & tr & Hloop & Hret' & Htr).
      rewrite Hret' in Hret.
      destruct Hloop as [Hall | done image later fl tail Hdel Hdone Himage Hstop].
      * discriminate.
      * destruct fl as [[]|r|msg]; simpl in Hret; try discriminate.
        injection Hret as ->.
        assert (Hid : exists imageId, ec2.ImageId image = Some imageId).
        { inversion Himage; eauto. }
        destruct Hid as [imageId Hid].
        destruct (ImageOutcome_calls _ _ _ _ Himage Hid) as (Hd & _ & rest & Hs).
        destruct (imagesDeleted_calls done Hdone) as (_ & Hdd & _ & Hds).
        exists out, sorted, done, image, later, tail.
        rewrite <- Hev, Htr, Hd, Hid. repeat split; try assumption.
        exists rest. exact Hs.
    + destruct Hrun as [Hret' _]. congruence.
  - destruct Hrun as [_ Htr]. rewrite Hev in Htr.
    apply failure_is_last in Htr; [|apply preamble_quiet|congruence].
    destruct Htr as (_ & -> & _). discriminate.
Qed.

(** C6. A negative [keepCount] behaves as zero: the run is, event for
    event and result for result, the run with [keepCount = 0]; every
    image of the listing is in the deletion set; and a run that completes
    without error has deleted every image listed. *)
Theorem negative_keep_deletes_all (p : PostProcessor Conn) (artifact : Artifact) :
  KeepReleases (config p) < 0 ->
  PostProcess newConn p artifact = PostProcess newConn (withKeepReleases 0 p) artifact
  /\ (forall images, deletionSet (KeepReleases (config p)) images = images)
  /\ (forall a keep,
         returned (PostProcess newConn p artifact) = Done (a, keep, None) ->
         exists out,
           listing newConn p = inl out
           /\ Permutation (map ec2.ImageId (ec2.Images out))
                (map Some (deregistered (events (PostProcess newConn p artifact))))).
Proof.
  intros Hneg.
  assert (Hall : forall images, deletionSet (KeepReleases (config p)) images = images).
  { intros images. unfold deletionSet.
    replace (Z.to_nat (KeepReleases (config p))) with O by lia. reflexivity. }
  split; [|split; [exact Hall|]].
  - unfold PostProcess, withKeepReleases, describeAndDelete. simpl.
    destruct (ec2conn p) as [conn|]; simpl;
      unfold bind, log_Println, emit, call_DescribeImages, lift, return_; simpl;
      destruct (ec2iface.DescribeImages _ _) as [[out|e] c1]; simpl; try reflexivity;
      destruct (sortImages (ec2.Images out)) as [[err sorted]|msg]; simpl;
      try reflexivity;
      rewrite (deleteImages_negative _ sorted Hneg 0 c1) by lia; reflexivity.
  - intros a keep Hret.
    destruct (PostProcess_success p artifact a keep Hret)
      as (_ & _ & out & sorted & Hlist & Hsort & Hids & Hev).
    exists out. split; [exact Hlist|].
    destruct (sortImages_Done _ _ _ Hsort) as (_ & Hperm & _).
    destruct (listed_calls p) as (_ & Hl2 & _).
    destruct (imagesDeleted_calls _ Hids) as (_ & Hd2 & _).
    rewrite Hev, deregistered_app, Hl2. simpl. rewrite Hd2, Hall.
    apply Permutation_map, Hperm.
Qed.



(** C9. On every error return path, whether [DescribeImages],
    [DeregisterImage] or [DeleteSnapshot] failed, [PostProcess] returns a
    [nil] artifact, the flag [true] and the error of the provider as it
    is: whenever a provider call of the run answered with an error the
    run returns [(nil, true, that error)], and whenever the run returns
    an error the artifact is [nil], the flag is [true] and the error is
    the one of the call the events end with. *)
Theorem error_paths_return_nil_artifact (p : PostProcessor Conn) (artifact : Artifact) :
  (forall ev e,
      In ev (events (PostProcess newConn p artifact)) ->
      failure ev = Some e ->
      returned (PostProcess newConn p artifact) = Done (None, true, Some e))
  /\ (forall a keep e,
         returned (PostProcess newConn p artifact) = Done (a, keep, Some e) ->
         a = None /\ keep = true
         /\ exists before ev,
              events (PostProcess newConn p artifact) = before ++ [ev]
              /\ failure ev = Some e).
Proof.
  split.
  - intros ev e Hin Hfail. apply in_split in Hin as (before & after & Hev).
    apply (PostProcess_failure p artifact before ev after e Hev Hfail).
  - apply PostProcess_error.
Qed.

(** C10. The message ["Deleting image: <id>"] is emitted before the call
    of [DeregisterImage] on that image is attempted: in the events of
    every run each such call comes right after that message and the log
    line; so when the call fails the message is there although the image
    was not deleted, the call being the last event of the run. *)
Theorem message_before_deregister (p : PostProcessor Conn) (artifact : Artifact)
  before imageId err after :
  events (PostProcess newConn p artifact)
  = before ++ CallDeregisterImage imageId err :: after ->
  (exists earlier,
      before = earlier ++ [ UiMessage ("Deleting image: " ++ imageId);
                            LogLine ("Deleting image AMI (" ++ imageId ++ ")") ])
  /\ (forall e, err = Some e ->
        In (UiMessage ("Deleting image: " ++ imageId)) before
        /\ after = []
        /\ returned (PostProcess newConn p artifact) = Done (None, true, Some e)).
Proof.
  intros Hev.
  destruct (announced_PostProcess p artifact before imageId err after Hev)
    as [earlier Hbefore].
  split; [eauto|]. intros e ->.
  destruct (PostProcess_failure p artifact _ _ _ e Hev eq_refl) as (Hafter & Hret & _).
  split; [|auto]. rewrite Hbefore. apply in_or_app. right. left. reflexivity.
Qed.

End Claims.

Section Malformed.

Context `{!time.API}.

(** C5, as the code has it. An image whose creation date does not parse
    in the layout neither makes the sort panic nor surfaces an error:
    with a creation date on every image, parsable or not, the sort
    returns a [nil] error and the same images newest first. An
    unparsable date is compared as the zero [Time], January 1 of year 1,
    which is not the earliest time the layout can express: such an image
    sorts after every image whose date parses to a time strictly after
    the zero [Time], and is in the deletion set whenever at least
    [keepCount] images have such a date. *)
Theorem unparsable_dates_compare_as_zero (images : list ec2.Image) :
  Forall dated images ->
  exists sorted,
    sortImages images = Done (None, sorted)
    /\ Permutation images sorted
    /\ newestFirst sorted
    /\ (forall bad, unparsable bad -> createdAt bad = Some time.zero)
    /\ (forall before bad after,
           sorted = before ++ bad :: after -> unparsable bad ->
           Forall (fun image => afterZero image = false) after)
    /\ (forall keepReleases bad,
           (Z.to_nat keepReleases <= length (List.filter afterZero images))%nat ->
           In bad images -> unparsable bad ->
           In bad (deletionSet keepReleases sorted)).
Proof.
  intros Hdated. pose proof (sortImages_dated images Hdated) as Hsort.
  destruct (sortImages_Done _ _ _ Hsort) as (_ & Hperm & Hsorted).
  eexists. split; [exact Hsort|]. split; [exact Hperm|]. split; [exact Hsorted|].
  split; [exact unparsable_zero|].
  split.
  { intros before bad after Heq Hbad. rewrite Heq in Hsorted.
    eapply newestFirst_after_unparsable; eassumption. }
  intros keepReleases bad Hkeep Hin Hbad.
  set (sorted := passes (length images - 1) images) in *.
  assert (Hin' : In bad sorted) by (eapply Permutation_in; eassumption).
  apply in_split in Hin' as (before & after & Heq).
  assert (Hafter : Forall (fun image => afterZero image = false) (bad :: after)).
  { constructor; [apply unparsable_not_afterZero, Hbad|].
    rewrite Heq in Hsorted. eapply newestFirst_after_unparsable; eassumption. }
  assert (Hcount : (length (List.filter afterZero images) <= length before)%nat).
  { rewrite (Permutation_length (filter_permutation afterZero _ _ Hperm)).
    rewrite Heq, List.filter_app, (filter_none _ _ Hafter), app_nil_r.
    apply filter_length_le. }
  unfold deletionSet. rewrite Heq, skipn_app.
  apply in_or_app. right.
  replace (Z.to_nat keepReleases - length before)%nat with O by lia.
  left. reflexivity.
Qed.

End Malformed.

(** * More on [sort] *)

Section SortCalls.

Context {Slice : Type}.
Variables lessFunc lessFunc' : Z -> Z -> Slice -> Outcome bool.
Variables swapFunc swapFunc' : Z -> Z -> Slice -> Outcome Slice.
Variable len : Z.

(** The two pairs of closures do the same on adjacent indices inside
    [0 .. len-1]. *)
Hypothesis same_inside :
  forall m s, 0 < m < len ->
    lessFunc (m - 1) m s = lessFunc' (m - 1) m s
    /\ swapFunc (m - 1) m s = swapFunc' (m - 1) m s.





End SortCalls.

Section SortEdges.

Context {Slice : Type}.
Variable lessFunc : Z -> Z -> Slice -> Outcome bool.
Variable swapFunc : Z -> Z -> Slice -> Outcome Slice.


End SortEdges.

Section SortImagesMore.

Context `{!time.API}.

Lemma createdAt_None image :
  createdAt image = None <-> ec2.CreationDate image = None.
Proof. unfold createdAt. destruct (ec2.CreationDate image); split; congruence. Qed.

Lemma Exists_createdAt_None images :
  Exists (fun image => createdAt image = None) images
  <-> Exists (fun image => ec2.CreationDate image = None) images.
Proof.
  split; intros Hex; (eapply Exists_impl; [exact Hex|]);
    intros image; apply createdAt_None.
Qed.

(** X3. The sort of the listing panics exactly when two images or more
    are listed and one of them has no creation date; the panic is then a
    [nil] dereference, never an index out of range. In every other case
    it returns. *)
Theorem sortImages_panics_exactly (images : list ec2.Image) :
  (sortImages images = Panicked nil_dereference
   <-> (1 < length images)%nat
       /\ Exists (fun image => ec2.CreationDate image = None) images)
  /\ (forall msg, sortImages images = Panicked msg -> msg = nil_dereference)
  /\ (sortImages images <> Panicked nil_dereference ->
      exists sorted, sortImages images = Done (None, sorted)).
Proof.
  destruct (dated_or_not images) as [Hd|Hex].
  - rewrite (sortImages_dated images Hd). split; [|split].
    + split; [discriminate|]. intros [_ Hex]. exfalso.
      apply Exists_createdAt_None in Hex.
      apply List.Exists_exists in Hex as (image & Hin & Hnone).
      rewrite List.Forall_forall in Hd. destruct (Hd image Hin) as [t Ht]. congruence.
    + discriminate.
    + eauto.
  - destruct (Nat.le_gt_cases (length images) 1) as [Hlen|Hlen].
    + rewrite (sortImages_short images Hlen). split; [|split].
      * split; [discriminate|]. intros [Hlen' _]. lia.
      * discriminate.
      * eauto.
    + rewrite (sortImages_panics images Hlen Hex). split; [|split].
      * split; [|reflexivity]. intros _. split; [exact Hlen|].
        apply Exists_createdAt_None, Hex.
      * intros msg [= <-]. reflexivity.
      * congruence.
Qed.

(** Images none of which is after another: a pass brings the last one to
    the front and leaves the others in their order. *)
Lemma pass_ties l x :
  (forall a b, In a (l ++ [x]) -> In b (l ++ [x]) ->
               time.After (timeOf a) (timeOf b) = false) ->
  pass (l ++ [x]) = x :: l.
Proof.
  induction l as [|y l IH]; intros Hties; [reflexivity|].
  simpl. fold (pass (l ++ [x])). rewrite IH.
  - simpl. rewrite Hties; [reflexivity | left; reflexivity|].
    right. apply in_or_app. right. left. reflexivity.
  - intros a b Ha Hb. apply Hties; right; assumption.
Qed.

Lemma passes_ties l :
  (forall a b, In a l -> In b l -> time.After (timeOf a) (timeOf b) = false) ->
  passes (length l - 1) l = rev l.
Proof.
  induction l as [|x l IH] using rev_ind; intros Hties; [reflexivity|].
  rewrite length_app, rev_app_distr. simpl.
  replace (length l + 1 - 1)%nat with (length l) by lia.
  destruct l as [|y l]; [reflexivity|].
  cbn [length passes]. rewrite (pass_ties (y :: l) x Hties).
  f_equal. rewrite <- IH.
  - simpl. rewrite Nat.sub_0_r. reflexivity.
  - intros a b Ha Hb. apply Hties; apply in_or_app; left; assumption.
Qed.

(** X4. Ties are swapped: when every image has a creation date and all
    these dates compare equal, as they do when none of them parses, the
    sort returns the listing in reverse order. *)
Theorem sortImages_reverses_ties (images : list ec2.Image) (t : time.Time) :
  Forall (fun image => createdAt image = Some t) images ->
  sortImages images = Done (None, rev images).
Proof.
  intros Hsame. rewrite List.Forall_forall in Hsame.
  rewrite sortImages_dated.
  - rewrite passes_ties; [reflexivity|].
    intros a b Ha Hb. unfold timeOf. rewrite (Hsame a Ha), (Hsame b Hb).
    apply TimeFacts.After_irrefl.
  - apply List.Forall_forall. intros image Hin. exists t. apply Hsame, Hin.
Qed.

Lemma not_After_antisym t u :
  time.After t u = false -> time.After u t = false -> t = u.
Proof.
  unfold time.After. destruct t as [ts tn], u as [us un]. simpl.
  intros H1 H2. f_equal; lia.
Qed.

Lemma NoDup_map_eq {A B : Type} (f : A -> B) (l : list A) a b :
  List.NoDup (map f l) -> In a l -> In b l -> f a = f b -> a = b.
Proof.
  induction l as [|x l IH]; intros Hnd Ha Hb Hf; [destruct Ha|].
  simpl in Hnd. apply List.NoDup_cons_iff in Hnd as [Hx Hnd].
  destruct Ha as [<-|Ha], Hb as [<-|Hb].
  - reflexivity.
  - exfalso. apply Hx. rewrite Hf. apply in_map, Hb.
  - exfalso. apply Hx. rewrite <- Hf. apply in_map, Ha.
  - apply IH; assumption.
Qed.

(** Two orderings of the same elements by a relation that is antisymmetric
    on them are the same list. *)
Lemma sorted_permutation_unique {A : Type} (R : A -> A -> Prop) (l : list A) :
  forall l',
    StronglySorted R l -> StronglySorted R l' -> Permutation l l' ->
    (forall a b, In a l -> In b l -> R a b -> R b a -> a = b) ->
    l = l'.
Proof.
  induction l as [|a l IH]; intros l' Hs Hs' Hperm Hanti.
  - apply Permutation_nil in Hperm. congruence.
  - destruct l' as [|a' l'].
    { symmetry in Hperm. apply Permutation_nil in Hperm. discriminate. }
    apply StronglySorted_inv in Hs as [Hs Ha].
    apply StronglySorted_inv in Hs' as [Hs' Ha'].
    rewrite List.Forall_forall in Ha, Ha'.
    assert (Heq : a = a').
    { assert (Hin : In a (a' :: l')) by (eapply Permutation_in; [exact Hperm | left; reflexivity]).
      assert (Hin' : In a' (a :: l))
        by (eapply Permutation_in; [symmetry; exact Hperm | left; reflexivity]).
      destruct Hin as [Heq|Hin]; [congruence|].
      destruct Hin' as [Heq|Hin']; [congruence|].
      apply Hanti; [left; reflexivity | right; exact Hin' | apply Ha, Hin' | apply Ha', Hin]. }
    subst a'. f_equal. apply IH; [assumption | assumption | |].
    + eapply Permutation_cons_inv, Hperm.
    + intros x y Hx Hy. apply Hanti; right; assumption.
Qed.

Lemma newestFirst_unique l l' :
  newestFirst l -> newestFirst l' -> Permutation l l' ->
  List.NoDup (map createdAt l) -> l = l'.
Proof.
  intros Hs Hs' Hperm Hnd.
  apply (sorted_permutation_unique (fun a b => notNewer b a)); try assumption.
  intros a b Ha Hb (tb & ta & Hb1 & Ha1 & H1) (ta' & tb' & Ha2 & Hb2 & H2).
  rewrite Ha1 in Ha2. rewrite Hb1 in Hb2. injection Ha2 as <-. injection Hb2 as <-.
  apply (NoDup_map_eq createdAt l a b Hnd Ha Hb).
  rewrite Ha1, Hb1. f_equal. apply not_After_antisym; assumption.
Qed.

(** X5. When the creation dates of the images listed are pairwise
    different as the comparison sees them, the order the sort leaves
    does not depend on the order of the listing: two listings of the same
    images are sorted into the same list. *)
Theorem sortImages_listing_order_irrelevant (images images' : list ec2.Image) :
  List.NoDup (map createdAt images) ->
  Permutation images images' ->
  sortImages images' = sortImages images.
Proof.
  intros Hnd Hperm.
  destruct (sortImages images) as [[err sorted]|msg] eqn:Hsort.
  - destruct (sortImages_Done _ _ _ Hsort) as (-> & Hp & Hs).
    destruct (sortImages images') as [[err' sorted']|msg'] eqn:Hsort'.
    + destruct (sortImages_Done _ _ _ Hsort') as (-> & Hp' & Hs').
      f_equal. f_equal. symmetry. apply newestFirst_unique; try assumption.
      * rewrite <- Hp, Hperm. exact Hp'.
      * eapply Permutation_NoDup; [|exact Hnd]. apply Permutation_map, Hp.
    + exfalso. destruct (dated_or_not images') as [Hd|Hex].
      * rewrite sortImages_dated in Hsort' by exact Hd. discriminate.
      * destruct (dated_or_not images) as [Hd|Hex'].
        -- apply List.Exists_exists in Hex as (image & Hin & Hnone).
           rewrite List.Forall_forall in Hd.
           destruct (Hd image) as [t Ht]; [|congruence].
           eapply Permutation_in; [symmetry; exact Hperm | exact Hin].
        -- destruct (Nat.le_gt_cases (length images) 1) as [Hlen|Hlen].
           ++ rewrite sortImages_short in Hsort'; [discriminate|].
              rewrite <- (Permutation_length Hperm). exact Hlen.
           ++ rewrite sortImages_panics in Hsort by assumption. discriminate.
  - destruct (dated_or_not images) as [Hd|Hex].
    + rewrite sortImages_dated in Hsort by exact Hd. discriminate.
    + destruct (Nat.le_gt_cases (length images) 1) as [Hlen|Hlen].
      * rewrite sortImages_short in Hsort by exact Hlen. discriminate.
      * rewrite sortImages_panics in Hsort by assumption. injection Hsort as <-.
        apply sortImages_panics.
        -- rewrite <- (Permutation_length Hperm). exact Hlen.
        -- apply List.Exists_exists in Hex as (image & Hin & Hnone).
           apply List.Exists_exists. exists image. split; [|exact Hnone].
           eapply Permutation_in; eassumption.
Qed.

(** X6. A listing that is already newest first, with creation dates
    pairwise different as the comparison sees them, is left as it is by
    the sort. *)
Theorem sortImages_sorted_unchanged (images : list ec2.Image) :
  newestFirst images ->
  List.NoDup (map createdAt images) ->
  sortImages images = Done (None, images).
Proof.
  intros Hs Hnd.
  destruct (Nat.le_gt_cases (length images) 1) as [Hlen|Hlen].
  - apply sortImages_short, Hlen.
  - assert (Hd : Forall dated images).
    { destruct images as [|a [|b l]]; simpl in Hlen; try lia.
      apply StronglySorted_inv in Hs as [Hs Ha].
      assert (Hda : dated a).
      { apply Forall_cons_1 in Ha as [(tb & ta & _ & Hta & _) _]. exists ta. exact Hta. }
      constructor; [exact Hda|].
      eapply Forall_impl; [exact Ha|]. simpl.
      intros x (tx & ta & Htx & _). exists tx. exact Htx. }
    pose proof (sortImages_dated images Hd) as Hsort. rewrite Hsort.
    destruct (sortImages_Done _ _ _ Hsort) as (_ & Hp & Hs').
    f_equal. f_equal. symmetry. apply newestFirst_unique; assumption.
Qed.

End SortImagesMore.

(** * More on the runs *)

Section LoopsMore.

Context {Conn : Type} `{!ec2iface.EC2API Conn} {Artifact : Type}.
Implicit Types (fl : @Flow Artifact unit) (tr : list Event).

(** What holds of log lines, messages and deleting calls holds of every
    event of the loops. *)
Section EventsOfLoops.

Variable P : Event -> Prop.
Hypothesis P_log : forall line, P (LogLine line).
Hypothesis P_ui : forall msg, P (UiMessage msg).
Hypothesis P_deregister : forall imageId err, P (CallDeregisterImage imageId err).
Hypothesis P_delete : forall snapshotId err, P (CallDeleteSnapshot snapshotId err).

Lemma snapshotsDeleted_events imageId devices : Forall P (snapshotsDeleted imageId devices).
Proof.
  induction devices as [|device rest IH]; [constructor|].
  rewrite snapshotsDeleted_cons. apply Forall_app. split; [|exact IH].
  destruct (ec2.Ebs device) as [[[snapshotId|]]|]; repeat constructor; auto.
Qed.

Lemma imagesDeleted_events images : Forall P (flat_map imageDeleted images).
Proof.
  induction images as [|image rest IH]; simpl; [constructor|].
  apply Forall_app. split; [|exact IH]. unfold imageDeleted.
  destruct (ec2.ImageId image) as [imageId|]; [|constructor].
  simpl. repeat constructor; auto. apply snapshotsDeleted_events.
Qed.

Lemma SnapshotsOutcome_events imageId devices fl tr :
  SnapshotsOutcome imageId devices fl tr -> Forall P tr.
Proof.
  intros [ | before device after snapshotId e _ _ | before device after _ _].
  - apply snapshotsDeleted_events.
  - apply Forall_app. split; [apply snapshotsDeleted_events | repeat constructor; auto].
  - apply snapshotsDeleted_events.
Qed.

Lemma ImageOutcome_events image fl tr : ImageOutcome image fl tr -> Forall P tr.
Proof.
  intros [i Hi | Hi | i e Hi | i fl' tr' Hi Hsnap _].
  - pose proof (imagesDeleted_events [image]) as Hone. simpl in Hone.
    rewrite app_nil_r in Hone. exact Hone.
  - constructor.
  - repeat constructor; auto.
  - simpl. repeat constructor; auto. eapply SnapshotsOutcome_events, Hsnap.
Qed.

Lemma LoopOutcome_events images fl tr : LoopOutcome images fl tr -> Forall P tr.
Proof.
  intros [_ | done image later fl' tr' _ _ Himage _].
  - apply imagesDeleted_events.
  - apply Forall_app. split; [apply imagesDeleted_events|].
    eapply ImageOutcome_events, Himage.
Qed.

End EventsOfLoops.

Lemma not_deletable_without_id image :
  ec2.ImageId image = None -> ~ deletable image.
Proof. intros Hid [[i Hi] _]. congruence. Qed.

Lemma not_deletable_without_snapshot_id image before device after :
  ec2.BlockDeviceMappings image = before ++ device :: after ->
  ec2.Ebs device = Some {| ec2.SnapshotId := None |} ->
  ~ deletable image.
Proof.
  intros Hdevices Hebs [_ Hall]. rewrite Hdevices in Hall.
  apply Forall_app in Hall as [_ Hall]. apply Forall_cons_1 in Hall as [Hd _].
  destruct (Hd _ Hebs) as [s Hs]. discriminate.
Qed.

(** The loop panics only on a [nil] dereference, at an image that is not
    deletable. *)
Lemma LoopOutcome_panic images msg tr :
  LoopOutcome images (@Panic Artifact unit msg) tr ->
  msg = nil_dereference /\ Exists (fun image => ~ deletable image) images.
Proof.
  intros Hloop.
  inversion Hloop as [ | done image later fl tail Hdel Hdone Himage Hstop]; subst.
  assert (Hbad : msg = nil_dereference /\ ~ deletable image).
  { inversion Himage as [ | Hid | | imageId fl' tr' Hid Hsnap Hfl]; subst.
    - split; [reflexivity | apply not_deletable_without_id, Hid].
    - inversion Hsnap as [ | | before device after Hdev Hebs]; subst.
      split; [reflexivity|].
      eapply not_deletable_without_snapshot_id; eassumption. }
  destruct Hbad as [-> Hbad]. split; [reflexivity|].
  apply Exists_app. right. constructor. exact Hbad.
Qed.

Lemma imagesDeleted_messages images :
  uiMessages (flat_map imageDeleted images)
  = map (fun imageId => "Deleting image: " ++ imageId)%string
      (deregisterCalls (flat_map imageDeleted images)).
Proof.
  induction images as [|image rest IH]; [reflexivity|].
  simpl. rewrite uiMessages_app, deregisterCalls_app, map_app, IH. f_equal.
  destruct (ec2.ImageId image) as [imageId|] eqn:Hid.
  - destruct (imageDeleted_calls image imageId Hid) as (-> & _ & -> & _). reflexivity.
  - unfold imageDeleted. rewrite Hid. reflexivity.
Qed.

Lemma LoopOutcome_messages images fl tr :
  LoopOutcome images fl tr ->
  uiMessages tr
  = map (fun imageId => "Deleting image: " ++ imageId)%string (deregisterCalls tr).
Proof.
  intros [_ | done image later fl' tail _ _ Himage _].
  - apply imagesDeleted_messages.
  - rewrite uiMessages_app, deregisterCalls_app, map_app, imagesDeleted_messages.
    f_equal. destruct (ec2.ImageId image) as [imageId|] eqn:Hid.
    + destruct (ImageOutcome_calls _ _ _ _ Himage Hid) as (-> & -> & _). reflexivity.
    + inversion Himage; subst; try congruence. reflexivity.
Qed.

(** The calls of [DeleteSnapshot] follow the snapshots of the images of
    the deletion set, image after image, device after device. *)
Lemma LoopOutcome_snapshots images fl tr :
  LoopOutcome images fl tr ->
  exists rest,
    flat_map snapshotIds images = snapshotCalls tr ++ rest
    /\ (fl = Next tt -> rest = []).
Proof.
  intros [Hall | done image later fl' tail -> Hdone Himage Hstop].
  - exists []. rewrite app_nil_r. split; [|reflexivity].
    destruct (imagesDeleted_calls images Hall) as (_ & _ & _ & ->). reflexivity.
  - destruct (imagesDeleted_calls done Hdone) as (_ & _ & _ & Hd).
    rewrite flat_map_app, snapshotCalls_app, Hd. simpl.
    destruct (ec2.ImageId image) as [imageId|] eqn:Hid.
    + destruct (ImageOutcome_calls _ _ _ _ Himage Hid) as (_ & _ & rest & ->).
      exists (rest ++ flat_map snapshotIds later).
      rewrite <- !app_assoc. split; [reflexivity | congruence].
    + inversion Himage; subst; try congruence.
      exists (snapshotIds image ++ flat_map snapshotIds later).
      split; [simpl; rewrite app_nil_r; reflexivity | congruence].
Qed.

(** With a provider that never refuses, the loops return from inside at
    no point. *)
Lemma deleteSnapshots_never_refused imageId devices :
  neverRefuses Conn -> forall (c : Conn) r,
  fst (fst (deleteSnapshots (Artifact := Artifact) imageId devices c)) <> Return r.
Proof.
  intros Hnever. induction devices as [|device rest IH]; intros c r; simpl.
  - discriminate.
  - destruct (ec2.Ebs device) as [[[snapshotId|]]|]; [| discriminate | apply IH].
    run_statements. pose proof (proj2 (Hnever snapshotId c)) as Hok.
    destruct (ec2iface.DeleteSnapshot snapshotId c) as [err c1]. simpl in Hok. subst err.
    specialize (IH c1 r).
    destruct (deleteSnapshots imageId rest c1) as [[fl2 c2] tr2]. exact IH.
Qed.

Lemma deleteImage_never_refused image :
  neverRefuses Conn -> forall (c : Conn) r,
  fst (fst (deleteImage (Artifact := Artifact) image c)) <> Return r.
Proof.
  intros Hnever c r. unfold deleteImage.
  destruct (ec2.ImageId image) as [imageId|]; [|discriminate].
  run_statements. pose proof (proj1 (Hnever imageId c)) as Hok.
  destruct (ec2iface.DeregisterImage imageId c) as [err c1]. simpl in Hok. subst err.
  pose proof (deleteSnapshots_never_refused imageId (ec2.BlockDeviceMappings image)
                Hnever c1 r) as Hsnap.
  destruct (deleteSnapshots imageId (ec2.BlockDeviceMappings image) c1) as [[fl2 c2] tr2].
  exact Hsnap.
Qed.

Lemma deleteImages_never_refused keepReleases images :
  neverRefuses Conn -> forall i (c : Conn) r,
  fst (fst (deleteImages (Artifact := Artifact) keepReleases i images c)) <> Return r.
Proof.
  intros Hnever. induction images as [|image rest IH]; intros i c r; simpl.
  - discriminate.
  - destruct (i <? keepReleases); [apply IH|].
    unfold bind. pose proof (deleteImage_never_refused image Hnever c r) as Hbody.
    destruct (deleteImage image c) as [[[[]|r1|msg] c1] tr1]; simpl in *.
    + specialize (IH (i + 1) c1 r).
      destruct (deleteImages keepReleases (i + 1) rest c1) as [[fl2 c2] tr2]. exact IH.
    + exact Hbody.
    + discriminate.
Qed.

End LoopsMore.

Section RunsMore.

Context {Conn : Type} `{!ec2iface.EC2API Conn} `{!time.API} {Artifact : Type}.
Variable newConn : string -> string -> string -> Conn.
Implicit Types (fl : @Flow Artifact unit) (tr : list Event).

(** The run, step by step, with the connection. *)
Lemma PostProcess_steps (p : PostProcessor Conn) (artifact : Artifact) :
  PostProcess newConn p artifact =
  match ec2iface.DescribeImages (describeInput (config p)) (connectionUsed newConn p) with
  | (inr e, c1) =>
      {| returned := Done (None, true, Some e);
         connection := c1;
         events := preamble p ++ [CallDescribeImages (describeInput (config p)) (Some e)] |}
  | (inl out, c1) =>
      match sortImages (ec2.Images out) with
      | Panicked msg =>
          {| returned := Panicked msg;
             connection := c1;
             events := preamble p ++ [CallDescribeImages (describeInput (config p)) None] |}
      | Done (_, sorted) =>
          match deleteImages (KeepReleases (config p)) 0 sorted c1 with
          | (fl, c2, tr) =>
              {| returned := returnedFor artifact fl;
                 connection := c2;
                 events := listed p ++ tr |}
          end
      end
  end.
Proof.
  unfold listed, preamble, connectionUsed, PostProcess, describeAndDelete.
  run_statements.
  destruct (ec2conn p) as [conn|]; simpl;
    destruct (ec2iface.DescribeImages _ _) as [[out|e] c1]; simpl; try reflexivity;
    destruct (sortImages (ec2.Images out)) as [[err sorted]|msg]; simpl; try reflexivity;
    destruct (deleteImages _ 0 sorted c1) as [[[[]|r|msg] c2] tr]; simpl;
    rewrite ?app_nil_r; reflexivity.
Qed.

Lemma describeCalls_none tr :
  Forall (fun ev => describeCalls [ev] = []) tr -> describeCalls tr = [].
Proof.
  induction 1 as [|ev tr Hev _ IH]; [reflexivity|].
  change (describeCalls (ev :: tr)) with (describeCalls ([ev] ++ tr)).
  unfold describeCalls in *. rewrite flat_map_app, Hev, IH. reflexivity.
Qed.

Lemma LoopOutcome_no_describe images fl tr :
  LoopOutcome images fl tr -> describeCalls tr = [].
Proof.
  intros Hloop. apply describeCalls_none.
  eapply (LoopOutcome_events (fun ev => describeCalls [ev] = [])); [..|exact Hloop];
    reflexivity.
Qed.

Lemma preamble_no_call (p : PostProcessor Conn) :
  Forall (fun ev => isProviderCall ev = false) (preamble p).
Proof. unfold preamble. destruct (ec2conn p); repeat constructor. Qed.

(** X7. Every run calls [DescribeImages] exactly once, before any other
    call to the provider, with one filter: the tag
    [Amazon_AMI_Management_Identifier] with the configured identifier for
    only value. *)
Theorem describe_images_called_once (p : PostProcessor Conn) (artifact : Artifact) :
  exists rest,
    events (PostProcess newConn p artifact)
    = preamble p
      ++ CallDescribeImages
           {| ec2.Filters :=
                [ {| ec2.Name := "tag:Amazon_AMI_Management_Identifier";
                     ec2.Values := [Identifier (config p)] |} ] |}
           (match listing newConn p with inl _ => None | inr e => Some e end)
      :: rest
    /\ Forall (fun ev => isProviderCall ev = false) (preamble p)
    /\ describeCalls rest = [].
Proof.
  pose proof (PostProcess_run newConn p artifact) as Hrun. cbv zeta in Hrun.
  fold (describeInput (config p)).
  destruct (listing newConn p) as [out|e].
  - destruct (sortImages (ec2.Images out)) as [[err sorted]|msg].
    + destruct Hrun as (fl & tr & Hloop & _ & ->).
      exists (LogLine "Deleting old images..." :: tr).
      split; [unfold listed; rewrite <- app_assoc; reflexivity|].
      split; [apply preamble_no_call|].
      apply (LoopOutcome_no_describe _ _ _ Hloop).
    + destruct Hrun as [_ ->]. exists []. split; [reflexivity|].
      split; [apply preamble_no_call | reflexivity].
  - destruct Hrun as [_ ->]. exists []. split; [reflexivity|].
    split; [apply preamble_no_call | reflexivity].
Qed.

(** X8. When [DescribeImages] fails the run stops there: the events end
    with that call, no deleting call is issued, the error is returned with
    a [nil] artifact, and the connection is left as that call left it. *)
Theorem describe_failure_stops_run (p : PostProcessor Conn) (artifact : Artifact) e :
  listing newConn p = inr e ->
  events (PostProcess newConn p artifact)
  = preamble p ++ [CallDescribeImages (describeInput (config p)) (Some e)]
  /\ Forall (fun ev => isDeleteCall ev = false) (events (PostProcess newConn p artifact))
  /\ returned (PostProcess newConn p artifact) = Done (None, true, Some e)
  /\ connection (PostProcess newConn p artifact)
     = snd (ec2iface.DescribeImages (describeInput (config p)) (connectionUsed newConn p)).
Proof.
  unfold listing. intros Hlist. rewrite PostProcess_steps.
  destruct (ec2iface.DescribeImages _ _) as [[out|e'] c1]; simpl in Hlist;
    [discriminate|].
  injection Hlist as ->. cbn [events returned connection snd].
  split; [reflexivity|]. split; [|split; reflexivity].
  apply Forall_app. split; [|repeat constructor].
  unfold preamble. destruct (ec2conn p); repeat constructor.
Qed.

(** X9. A run that panics panicked on a [nil] dereference, never on an
    index out of range, and every provider call it had made until then
    had succeeded. *)
Theorem panics_are_nil_dereferences (p : PostProcessor Conn) (artifact : Artifact) msg :
  returned (PostProcess newConn p artifact) = Panicked msg ->
  msg = nil_dereference
  /\ Forall (fun ev => failure ev = None) (events (PostProcess newConn p artifact)).
Proof.
  intros Hret. pose proof (PostProcess_run newConn p artifact) as Hrun. cbv zeta in Hrun.
  destruct (listing newConn p) as [out|e].
  - destruct (sortImages (ec2.Images out)) as [[err sorted]|msg'] eqn:Hsort.
    + destruct Hrun as (fl & tr & Hloop & Hret' & ->). rewrite Hret' in Hret.
      destruct fl as [[]|r|msg']; simpl in Hret; try discriminate.
      injection Hret as ->.
      split; [apply (LoopOutcome_panic _ _ _ Hloop)|].
      apply Forall_app. split; [apply listed_quiet|].
      apply LoopOutcome_ending in Hloop.
      inversion Hloop as [fl tr' Hnot Hq | ]; subst. exact Hq.
    + destruct Hrun as [Hret' ->]. rewrite Hret' in Hret. injection Hret as ->.
      split.
      * destruct (dated_or_not (ec2.Images out)) as [Hd|Hex].
        -- rewrite sortImages_dated in Hsort by exact Hd. discriminate.
        -- destruct (Nat.le_gt_cases (length (ec2.Images out)) 1) as [Hlen|Hlen].
           ++ rewrite sortImages_short in Hsort by exact Hlen. discriminate.
           ++ rewrite sortImages_panics in Hsort by assumption. congruence.
      * apply Forall_app. split; [apply preamble_quiet | repeat constructor].
  - destruct Hrun as [Hret' _]. congruence.
Qed.

(** X10. Once the listing is obtained and sorted, the run cannot panic
    when the images of the deletion set are deletable, that is, have an
    identifier and a snapshot identifier on each EBS device: what the
    retained images hold besides their creation date is never read. *)
Theorem deletable_images_no_panic (p : PostProcessor Conn) (artifact : Artifact)
  out err sorted :
  listing newConn p = inl out ->
  sortImages (ec2.Images out) = Done (err, sorted) ->
  Forall deletable (deletionSet (KeepReleases (config p)) sorted) ->
  exists result, returned (PostProcess newConn p artifact) = Done result.
Proof.
  intros Hlist Hsort Hdel. pose proof (PostProcess_run newConn p artifact) as Hrun.
  cbv zeta in Hrun. rewrite Hlist, Hsort in Hrun.
  destruct Hrun as (fl & tr & Hloop & -> & _).
  destruct fl as [[]|r|msg]; simpl; eauto.
  exfalso. destruct (LoopOutcome_panic _ _ _ Hloop) as [_ Hex].
  apply List.Exists_exists in Hex as (image & Hin & Hbad).
  rewrite List.Forall_forall in Hdel. apply Hbad, Hdel, Hin.
Qed.

(** X11. In every run, however it ends, the messages to the user are the
    messages ["Deleting image: <id>"] of the calls of [DeregisterImage],
    one per call and in the same order: no message without an attempt, no
    attempt without a message. *)
Theorem one_message_per_deregister_call (p : PostProcessor Conn) (artifact : Artifact) :
  uiMessages (events (PostProcess newConn p artifact))
  = map (fun imageId => "Deleting image: " ++ imageId)%string
      (deregisterCalls (events (PostProcess newConn p artifact))).
Proof.
  pose proof (PostProcess_run newConn p artifact) as Hrun. cbv zeta in Hrun.
  assert (Hpre : uiMessages (preamble p) = [] /\ deregisterCalls (preamble p) = []).
  { unfold preamble. destruct (ec2conn p); split; reflexivity. }
  destruct Hpre as [Hpre1 Hpre2].
  destruct (listing newConn p) as [out|e].
  - destruct (sortImages (ec2.Images out)) as [[err sorted]|msg].
    + destruct Hrun as (fl & tr & Hloop & _ & ->).
      destruct (listed_calls p) as (Hl1 & _ & Hl3 & _).
      rewrite uiMessages_app, deregisterCalls_app, Hl1, Hl3.
      apply (LoopOutcome_messages _ _ _ Hloop).
    + destruct Hrun as [_ ->].
      rewrite uiMessages_app, deregisterCalls_app, Hpre1, Hpre2. reflexivity.
  - destruct Hrun as [_ ->].
    rewrite uiMessages_app, deregisterCalls_app, Hpre1, Hpre2. reflexivity.
Qed.

(** X12. In every run the calls of [DeleteSnapshot] are, in order, the
    first snapshots of the images of the deletion set taken image after
    image and device after device, so no snapshot of a retained image is
    ever asked to be deleted; when the run completes without error they
    are all the snapshots of the deletion set. *)
Theorem snapshot_calls_follow_deletion_set (p : PostProcessor Conn) (artifact : Artifact)
  out err sorted :
  listing newConn p = inl out ->
  sortImages (ec2.Images out) = Done (err, sorted) ->
  exists rest,
    flat_map snapshotIds (deletionSet (KeepReleases (config p)) sorted)
    = snapshotCalls (events (PostProcess newConn p artifact)) ++ rest
    /\ (forall a keep,
           returned (PostProcess newConn p artifact) = Done (a, keep, None) ->
           rest = []).
Proof.
  intros Hlist Hsort. pose proof (PostProcess_run newConn p artifact) as Hrun.
  cbv zeta in Hrun. rewrite Hlist, Hsort in Hrun.
  destruct Hrun as (fl & tr & Hloop & -> & ->).
  destruct (LoopOutcome_snapshots _ _ _ Hloop) as (rest & Hrest & Hdone).
  destruct (listed_calls p) as (_ & _ & _ & Hl4 & _).
  exists rest. rewrite snapshotCalls_app, Hl4. split; [exact Hrest|].
  intros a keep Hret. destruct fl as [[]|r|msg]; simpl in Hret.
  - apply Hdone. reflexivity.
  - injection Hret as ->. apply LoopOutcome_ending in Hloop.
    destruct (Ending_no_error _ _ _ _ Hloop eq_refl).
  - discriminate.
Qed.

(** X13. With a provider that never refuses a deletion, a run whose
    deletion set holds deletable images completes without error and
    deletes the whole deletion set, images and snapshots. *)
Theorem never_refused_run_completes (p : PostProcessor Conn) (artifact : Artifact)
  out err sorted :
  neverRefuses Conn ->
  listing newConn p = inl out ->
  sortImages (ec2.Images out) = Done (err, sorted) ->
  Forall deletable (deletionSet (KeepReleases (config p)) sorted) ->
  returned (PostProcess newConn p artifact) = Done (Some artifact, true, None)
  /\ events (PostProcess newConn p artifact)
     = listed p ++ flat_map imageDeleted (deletionSet (KeepReleases (config p)) sorted).
Proof.
  unfold listing. intros Hnever Hlist Hsort Hdel. rewrite PostProcess_steps.
  destruct (ec2iface.DescribeImages _ _) as [[out'|e] c1]; simpl in Hlist;
    [|discriminate].
  injection Hlist as ->. rewrite Hsort.
  pose proof (deleteImages_never_refused (Artifact := Artifact)
                (KeepReleases (config p)) sorted Hnever 0 c1) as Hnot.
  destruct (deleteImages (KeepReleases (config p)) 0 sorted c1) as [[fl c2] tr] eqn:Hloop.
  apply deleteImages_run in Hloop; [|lia]. rewrite Z.sub_0_r in Hloop. simpl in *.
  destruct fl as [[]|r|msg].
  - inversion Hloop as [Hall | done image later fl tail Hd Hdone Himage Hstop]; subst;
      [|congruence].
    split; reflexivity.
  - destruct (Hnot r eq_refl).
  - exfalso. destruct (LoopOutcome_panic _ _ _ Hloop) as [_ Hex].
    apply List.Exists_exists in Hex as (image & Hin & Hbad).
    rewrite List.Forall_forall in Hdel. apply Hbad, Hdel, Hin.
Qed.

(** X14. When two images or more are listed and one of them has no
    creation date, the run panics in the sort, before the loop: the only
    call made to the provider is [DescribeImages] and nothing is
    deleted. *)
Theorem undated_listing_panics_before_deleting
  (p : PostProcessor Conn) (artifact : Artifact) out :
  listing newConn p = inl out ->
  (1 < length (ec2.Images out))%nat ->
  Exists (fun image => ec2.CreationDate image = None) (ec2.Images out) ->
  returned (PostProcess newConn p artifact) = Panicked nil_dereference
  /\ events (PostProcess newConn p artifact)
     = preamble p ++ [CallDescribeImages (describeInput (config p)) None]
  /\ Forall (fun ev => isDeleteCall ev = false) (events (PostProcess newConn p artifact)).
Proof.
  intros Hlist Hlen Hex. pose proof (PostProcess_run newConn p artifact) as Hrun.
  cbv zeta in Hrun. rewrite Hlist in Hrun.
  rewrite sortImages_panics in Hrun; [|exact Hlen|].
  - destruct Hrun as [-> ->]. split; [reflexivity|]. split; [reflexivity|].
    apply Forall_app. split; [|repeat constructor].
    unfold preamble. destruct (ec2conn p); repeat constructor.
  - eapply Exists_impl; [exact Hex|]. intros image Hnone.
    unfold createdAt. rewrite Hnone. reflexivity.
Qed.



(** X18. With an injected connection the region and the keys of the
    configuration are not used: two processors with the same connection,
    identifier and retention count run alike. *)
Theorem injected_connection_ignores_credentials
  (p p' : PostProcessor Conn) (artifact : Artifact) conn :
  ec2conn p = Some conn -> ec2conn p' = Some conn ->
  Identifier (config p) = Identifier (config p') ->
  KeepReleases (config p) = KeepReleases (config p') ->
  PostProcess newConn p artifact = PostProcess newConn p' artifact.
Proof.
  intros Hc Hc' Hid Hkeep. rewrite !PostProcess_steps.
  unfold connectionUsed, listed, preamble, describeInput.
  rewrite Hc, Hc', Hid, Hkeep. reflexivity.
Qed.

End RunsMore.

Section ReplayFacts.

Context {Conn : Type} `{!ec2iface.EC2API Conn} `{!time.API} {Artifact : Type}.
Variable newConn : string -> string -> string -> Conn.

















Lemma deleteSnapshots_ephemeral_only imageId devices (c : Conn) :
  Forall (fun device => ec2.Ebs device = None) devices ->
  deleteSnapshots (Artifact := Artifact) imageId devices c = (Next tt, c, []).
Proof.
  induction 1 as [|device rest Hebs _ IH]; simpl; [reflexivity|].
  rewrite Hebs. exact IH.
Qed.

(** X17. An image none of whose devices has an EBS block, in particular
    an image without device mapping, costs one call: its deletion is the
    message, the log line, the call of [DeregisterImage] and, when that
    call succeeds, one more log line; the connection is left as
    [DeregisterImage] left it. *)
Theorem image_without_ebs_only_deregistered (image : ec2.Image) imageId (c : Conn) :
  ec2.ImageId image = Some imageId ->
  Forall (fun device => ec2.Ebs device = None) (ec2.BlockDeviceMappings image) ->
  deleteImage (Artifact := Artifact) image c
  = match ec2iface.DeregisterImage imageId c with
    | (Some e, c') =>
        (Return (None, true, Some e), c', deregisterAttempt imageId (Some e))
    | (None, c') =>
        (Next tt, c',
         deregisterAttempt imageId None
         ++ [LogLine ("Deleting snapshot related to AMI (" ++ imageId ++ ")")])
    end.
Proof.
  intros Hid Hdevices. unfold deleteImage. rewrite Hid. run_statements.
  destruct (ec2iface.DeregisterImage imageId c) as [[e|] c1]; [reflexivity|].
  rewrite (deleteSnapshots_ephemeral_only _ _ c1 Hdevices). reflexivity.
Qed.

End ReplayFacts.

(** * The claims on the test double *)

(** The scenario of the specification: three images listed out of order,
    one kept. The newest stays; the two others are deleted, newest first,
    with their snapshots; the ephemeral device of the oldest gets no
    call. *)
Example scenario_keep_one :
  FakeEC2.run 1 FakeEC2.three =
  {| returned := Done (Some "artifact"%string, true, None);
     connection := FakeEC2.region [FakeEC2.ami1] ["snap-1"%string];
     events :=
       listed (FakeEC2.processor 1 FakeEC2.three)
       ++ imageDeleted FakeEC2.ami2 ++ imageDeleted FakeEC2.ami3 |}.
Proof. reflexivity. Qed.

(** A second run on what the first one left deletes nothing. *)
Example scenario_second_run :
  deregisterCalls
    (events (FakeEC2.run 1 (connection (FakeEC2.run 1 FakeEC2.three)))) = []
  /\ snapshotCalls
       (events (FakeEC2.run 1 (connection (FakeEC2.run 1 FakeEC2.three)))) = [].
Proof. split; reflexivity. Qed.

(** An EBS device whose snapshot identifier is absent makes the run panic
    after the image is deregistered. *)
Example scenario_snapshot_id_absent :
  returned
    (FakeEC2.run 0
       (FakeEC2.region
          [ {| ec2.ImageId := Some "ami-5"%string;
               ec2.CreationDate := Some "2020-01-05T00:00:00.000Z"%string;
               ec2.BlockDeviceMappings :=
                 [ {| ec2.Ebs := Some {| ec2.SnapshotId := None |} |} ] |} ] []))
  = Panicked nil_dereference.
Proof. reflexivity. Qed.

Lemma retention_keeps_newest_witness :
  let p := FakeEC2.processor 1 FakeEC2.three in
  let r := FakeEC2.run 1 FakeEC2.three in
  exists out sorted,
    listing FakeEC2.newConn p = inl out
    /\ sortImages (ec2.Images out) = Done (None, sorted)
    /\ Permutation (ec2.Images out) (retained 1 sorted ++ deletionSet 1 sorted)
    /\ length (retained 1 sorted) = Nat.min (Z.to_nat 1) (length (ec2.Images out))
    /\ (forall kept deleted,
           In kept (retained 1 sorted) -> In deleted (deletionSet 1 sorted) ->
           notNewer deleted kept)
    /\ map Some (deregistered (events r)) = map ec2.ImageId (deletionSet 1 sorted)
    /\ Z.of_nat (length (deregistered (events r)))
       = Z.max 0 (Z.of_nat (length (ec2.Images out)) - 1)
    /\ (Z.of_nat (length (ec2.Images out)) <= 1 ->
        Forall (fun ev => isDeleteCall ev = false) (events r)).
Proof.
  intros p r. subst p r.
  apply (retention_keeps_newest FakeEC2.newConn (FakeEC2.processor 1 FakeEC2.three)
           "artifact"%string (Some "artifact"%string) true).
  - simpl. lia.
  - reflexivity.
Defined.


Lemma snapshots_after_successful_deregister_witness :
  exists (segments : list (ec2.Image * list Event)) later,
    events (FakeEC2.run 1 FakeEC2.orphaned)
    = listed (FakeEC2.processor 1 FakeEC2.orphaned) ++ concat (map snd segments)
    /\ deletionSet 1 [FakeEC2.ami1; FakeEC2.ami2; FakeEC2.ami3] = map fst segments ++ later
    /\ Forall (fun segment => cascade (fst segment) (snd segment)) segments.
Proof.
  apply (snapshots_after_successful_deregister FakeEC2.newConn
           (FakeEC2.processor 1 FakeEC2.orphaned) "artifact"%string
           {| ec2.Images := [FakeEC2.ami3; FakeEC2.ami1; FakeEC2.ami2] |} None
           [FakeEC2.ami1; FakeEC2.ami2; FakeEC2.ami3]).
  - reflexivity.
  - reflexivity.
Defined.

Lemma abort_on_first_failure_witness :
  let p := FakeEC2.processor 1 FakeEC2.guarded in
  let e := "OperationNotPermitted: ami-3"%string in
  let ev := CallDeregisterImage "ami-3" (Some e) in
  returned (FakeEC2.run 1 FakeEC2.guarded) = Done (None, true, Some e)
  /\ Forall (fun ev => failure ev = None) guardedBefore
  /\ exists out sorted done image later tail,
       listing FakeEC2.newConn p = inl out
       /\ sortImages (ec2.Images out) = Done (None, sorted)
       /\ deletionSet 1 sorted = done ++ image :: later
       /\ guardedBefore ++ [ev] = listed p ++ flat_map imageDeleted done ++ tail
       /\ map Some (deregistered (flat_map imageDeleted done)) = map ec2.ImageId done
       /\ snapshotCalls (flat_map imageDeleted done) = flat_map snapshotIds done
       /\ map Some (deregisterCalls tail) = [ec2.ImageId image]
       /\ exists rest, snapshotIds image = snapshotCalls tail ++ rest.
Proof.
  intros p e ev. subst p e ev.
  apply (abort_on_first_failure FakeEC2.newConn (FakeEC2.processor 1 FakeEC2.guarded)
           "artifact"%string guardedBefore
           (CallDeregisterImage "ami-3" (Some "OperationNotPermitted: ami-3"%string)) []
           "OperationNotPermitted: ami-3"%string).
  - reflexivity.
  - reflexivity.
  - reflexivity.
Defined.

Lemma negative_keep_deletes_all_witness :
  FakeEC2.run (-2) FakeEC2.three = FakeEC2.run 0 FakeEC2.three
  /\ deregistered (events (FakeEC2.run (-2) FakeEC2.three))
     = ["ami-1"; "ami-2"; "ami-3"]%string.
Proof.
  split.
  - apply (negative_keep_deletes_all FakeEC2.newConn (FakeEC2.processor (-2) FakeEC2.three)
             "artifact"%string).
    simpl. lia.
  - reflexivity.
Defined.



Lemma error_paths_return_nil_artifact_witness :
  returned (FakeEC2.run 1 FakeEC2.down) = Done (None, true, Some "RequestLimitExceeded"%string)
  /\ returned (FakeEC2.run 1 FakeEC2.guarded)
     = Done (None, true, Some "OperationNotPermitted: ami-3"%string)
  /\ returned (FakeEC2.run 1 FakeEC2.orphaned)
     = Done (None, true, Some "InvalidSnapshot.NotFound: snap-2"%string).
Proof.
  split; [|split].
  - apply (proj1 (error_paths_return_nil_artifact FakeEC2.newConn
                    (FakeEC2.processor 1 FakeEC2.down) "artifact"%string)
             (CallDescribeImages (describeInput (FakeEC2.cfg 1))
                (Some "RequestLimitExceeded"%string))).
    + vm_compute. auto 10.
    + reflexivity.
  - apply (proj1 (error_paths_return_nil_artifact FakeEC2.newConn
                    (FakeEC2.processor 1 FakeEC2.guarded) "artifact"%string)
             (CallDeregisterImage "ami-3" (Some "OperationNotPermitted: ami-3"%string))).
    + vm_compute. auto 20.
    + reflexivity.
  - apply (proj1 (error_paths_return_nil_artifact FakeEC2.newConn
                    (FakeEC2.processor 1 FakeEC2.orphaned) "artifact"%string)
             (CallDeleteSnapshot "snap-2" (Some "InvalidSnapshot.NotFound: snap-2"%string))).
    + vm_compute. auto 20.
    + reflexivity.
Defined.

Lemma message_before_deregister_witness :
  (exists earlier,
      guardedBefore
      = earlier ++ [ UiMessage "Deleting image: ami-3"; LogLine "Deleting image AMI (ami-3)" ])
  /\ (forall e, Some "OperationNotPermitted: ami-3"%string = Some e ->
        In (UiMessage "Deleting image: ami-3") guardedBefore
        /\ @nil Event = []
        /\ returned (FakeEC2.run 1 FakeEC2.guarded) = Done (None, true, Some e)).
Proof.
  apply (message_before_deregister FakeEC2.newConn (FakeEC2.processor 1 FakeEC2.guarded)
           "artifact"%string guardedBefore "ami-3"%string
           (Some "OperationNotPermitted: ami-3"%string) []).
  reflexivity.
Defined.

Lemma unparsable_dates_compare_as_zero_witness :
  exists sorted,
    sortImages [FakeEC2.amiBad; FakeEC2.ami1; FakeEC2.ami2] = Done (None, sorted)
    /\ Permutation [FakeEC2.amiBad; FakeEC2.ami1; FakeEC2.ami2] sorted
    /\ newestFirst sorted
    /\ (forall bad, unparsable bad -> createdAt bad = Some time.zero)
    /\ (forall before bad after,
           sorted = before ++ bad :: after -> unparsable bad ->
           Forall (fun image => afterZero image = false) after)
    /\ (forall keepReleases bad,
           (Z.to_nat keepReleases
            <= length (List.filter afterZero [FakeEC2.amiBad; FakeEC2.ami1; FakeEC2.ami2]))%nat ->
           In bad [FakeEC2.amiBad; FakeEC2.ami1; FakeEC2.ami2] -> unparsable bad ->
           In bad (deletionSet keepReleases sorted)).
Proof.
  apply (unparsable_dates_compare_as_zero [FakeEC2.amiBad; FakeEC2.ami1; FakeEC2.ami2]).
  repeat constructor; eexists; reflexivity.
Defined.

(** C5, where the claim fails. The date of [FakeEC2.amiBad] does not
    parse; the date of [FakeEC2.amiOld], in year 0000, parses, to a time
    before the zero [Time]. The sort puts the image with the unparsable
    date first, before the validly dated one, and a run keeping one image
    keeps it and deletes the other. *)
Lemma unparsable_date_sorts_before_year_zero :
  unparsable FakeEC2.amiBad
  /\ time.Parse layout "0000-06-01T00:00:00.000Z"
     = ({| time.sec := -18489600; time.nsec := 0 |}, None)
  /\ sortImages [FakeEC2.amiOld; FakeEC2.amiBad]
     = Done (None, [FakeEC2.amiBad; FakeEC2.amiOld])
  /\ sortImages [FakeEC2.amiBad; FakeEC2.amiOld]
     = Done (None, [FakeEC2.amiBad; FakeEC2.amiOld])
  /\ returned (FakeEC2.run 1 FakeEC2.odd) = Done (Some "artifact"%string, true, None)
  /\ deregistered (events (FakeEC2.run 1 FakeEC2.odd)) = ["ami-old"%string]
  /\ ~ (forall images sorted before bad after valid,
          sortImages images = Done (None, sorted) ->
          sorted = before ++ bad :: after ->
          unparsable bad -> In valid after -> unparsable valid).
Proof.
  assert (Hbad : unparsable FakeEC2.amiBad).
  { exists "yesterday"%string, "parsing time yesterday"%string. split; reflexivity. }
  split; [exact Hbad|]. repeat split; try reflexivity.
  intros Hclaim.
  destruct (Hclaim [FakeEC2.amiOld; FakeEC2.amiBad] [FakeEC2.amiBad; FakeEC2.amiOld]
              [] FakeEC2.amiBad [FakeEC2.amiOld] FakeEC2.amiOld eq_refl eq_refl Hbad)
    as (value & e & Hdate & Herr).
  - left. reflexivity.
  - injection Hdate as <-. discriminate Herr.
Qed.


(** * More properties on the test doubles *)


Lemma sortImages_reverses_ties_witness :
  sortImages [Cases.amiBad1; FakeEC2.amiBad; Cases.amiBad2]
  = Done (None, [Cases.amiBad2; FakeEC2.amiBad; Cases.amiBad1]).
Proof.
  apply (sortImages_reverses_ties [Cases.amiBad1; FakeEC2.amiBad; Cases.amiBad2] time.zero).
  repeat constructor.
Defined.

Lemma sortImages_listing_order_irrelevant_witness :
  sortImages [FakeEC2.ami1; FakeEC2.ami2; FakeEC2.ami3]
  = sortImages [FakeEC2.ami3; FakeEC2.ami1; FakeEC2.ami2].
Proof.
  apply (sortImages_listing_order_irrelevant
           [FakeEC2.ami3; FakeEC2.ami1; FakeEC2.ami2]
           [FakeEC2.ami1; FakeEC2.ami2; FakeEC2.ami3]).
  - vm_compute. repeat (constructor; [simpl; intuition discriminate|]). constructor.
  - apply (perm_trans (perm_swap FakeEC2.ami1 FakeEC2.ami3 [FakeEC2.ami2])).
    apply perm_skip, perm_swap.
Defined.

Lemma sortImages_sorted_unchanged_witness :
  sortImages [FakeEC2.ami1; FakeEC2.ami2; FakeEC2.ami3]
  = Done (None, [FakeEC2.ami1; FakeEC2.ami2; FakeEC2.ami3]).
Proof.
  apply (sortImages_sorted_unchanged [FakeEC2.ami1; FakeEC2.ami2; FakeEC2.ami3]).
  - repeat (constructor;
            [|repeat (constructor; [do 2 eexists; repeat split; reflexivity|]);
              constructor]).
    constructor.
  - vm_compute. repeat (constructor; [simpl; intuition discriminate|]). constructor.
Defined.

Lemma describe_failure_stops_run_witness :
  events (FakeEC2.run 1 FakeEC2.down)
  = preamble (FakeEC2.processor 1 FakeEC2.down)
    ++ [CallDescribeImages (describeInput (FakeEC2.cfg 1))
          (Some "RequestLimitExceeded"%string)]
  /\ Forall (fun ev => isDeleteCall ev = false) (events (FakeEC2.run 1 FakeEC2.down))
  /\ returned (FakeEC2.run 1 FakeEC2.down)
     = Done (None, true, Some "RequestLimitExceeded"%string)
  /\ connection (FakeEC2.run 1 FakeEC2.down)
     = snd (ec2iface.DescribeImages (describeInput (FakeEC2.cfg 1))
              (connectionUsed FakeEC2.newConn (FakeEC2.processor 1 FakeEC2.down))).
Proof.
  apply (describe_failure_stops_run FakeEC2.newConn (FakeEC2.processor 1 FakeEC2.down)
           "artifact"%string "RequestLimitExceeded"%string).
  reflexivity.
Defined.

Lemma panics_are_nil_dereferences_witness :
  nil_dereference = nil_dereference
  /\ Forall (fun ev => failure ev = None) (events (FakeEC2.run 0 Cases.blank)).
Proof.
  apply (panics_are_nil_dereferences FakeEC2.newConn (FakeEC2.processor 0 Cases.blank)
           "artifact"%string nil_dereference).
  reflexivity.
Defined.

Lemma deletable_images_no_panic_witness :
  exists result, returned (FakeEC2.run 1 FakeEC2.orphaned) = Done result.
Proof.
  apply (deletable_images_no_panic FakeEC2.newConn (FakeEC2.processor 1 FakeEC2.orphaned)
           "artifact"%string
           {| ec2.Images := [FakeEC2.ami3; FakeEC2.ami1; FakeEC2.ami2] |} None
           [FakeEC2.ami1; FakeEC2.ami2; FakeEC2.ami3]).
  - reflexivity.
  - reflexivity.
  - repeat constructor; try (eexists; reflexivity);
      intros ebs Hebs; try discriminate; injection Hebs as <-; eexists; reflexivity.
Defined.

Lemma snapshot_calls_follow_deletion_set_witness :
  exists rest,
    flat_map snapshotIds (deletionSet 1 [FakeEC2.ami1; FakeEC2.ami2; FakeEC2.ami3; FakeEC2.ami4])
    = snapshotCalls (events (FakeEC2.run 1 FakeEC2.guarded)) ++ rest
    /\ (forall a keep,
           returned (FakeEC2.run 1 FakeEC2.guarded) = Done (a, keep, None) -> rest = []).
Proof.
  apply (snapshot_calls_follow_deletion_set FakeEC2.newConn
           (FakeEC2.processor 1 FakeEC2.guarded) "artifact"%string
           {| ec2.Images := [FakeEC2.ami3; FakeEC2.ami1; FakeEC2.ami4; FakeEC2.ami2] |} None
           [FakeEC2.ami1; FakeEC2.ami2; FakeEC2.ami3; FakeEC2.ami4]).
  - reflexivity.
  - reflexivity.
Defined.

Lemma never_refused_run_completes_witness :
  let p := Shelf.processor 1 in
  returned (PostProcess Shelf.newConn p "artifact"%string)
  = Done (Some "artifact"%string, true, None)
  /\ events (PostProcess Shelf.newConn p "artifact"%string)
     = listed p
       ++ flat_map imageDeleted (deletionSet 1 [FakeEC2.ami1; FakeEC2.ami2; FakeEC2.ami3]).
Proof.
  intros p. subst p.
  apply (never_refused_run_completes Shelf.newConn (Shelf.processor 1) "artifact"%string
           {| ec2.Images := [FakeEC2.ami3; FakeEC2.ami1; FakeEC2.ami2] |} None
           [FakeEC2.ami1; FakeEC2.ami2; FakeEC2.ami3]).
  - intros id c. split; reflexivity.
  - reflexivity.
  - reflexivity.
  - repeat constructor; try (eexists; reflexivity);
      intros ebs Hebs; try discriminate; injection Hebs as <-; eexists; reflexivity.
Defined.

Lemma undated_listing_panics_before_deleting_witness :
  returned (FakeEC2.run 0 Cases.undated) = Panicked nil_dereference
  /\ events (FakeEC2.run 0 Cases.undated)
     = preamble (FakeEC2.processor 0 Cases.undated)
       ++ [CallDescribeImages (describeInput (FakeEC2.cfg 0)) None]
  /\ Forall (fun ev => isDeleteCall ev = false) (events (FakeEC2.run 0 Cases.undated)).
Proof.
  apply (undated_listing_panics_before_deleting FakeEC2.newConn
           (FakeEC2.processor 0 Cases.undated) "artifact"%string
           {| ec2.Images := [FakeEC2.ami1; Cases.amiUndated] |}).
  - reflexivity.
  - simpl. lia.
  - right. left. reflexivity.
Defined.


Lemma image_without_ebs_only_deregistered_witness :
  deleteImage (Artifact := string) FakeEC2.ami3 FakeEC2.three
  = match ec2iface.DeregisterImage "ami-3"%string FakeEC2.three with
    | (Some e, c') =>
        (Return (None, true, Some e), c', deregisterAttempt "ami-3" (Some e))
    | (None, c') =>
        (Next tt, c',
         deregisterAttempt "ami-3" None
         ++ [LogLine "Deleting snapshot related to AMI (ami-3)"])
    end.
Proof.
  apply (image_without_ebs_only_deregistered (Artifact := string)
           FakeEC2.ami3 "ami-3"%string FakeEC2.three).
  - reflexivity.
  - repeat constructor.
Defined.

Lemma injected_connection_ignores_credentials_witness :
  FakeEC2.run 1 FakeEC2.three
  = PostProcess FakeEC2.newConn
      {| ec2conn := Some FakeEC2.three;
         config := {| Identifier := "web"; KeepReleases := 1;
                      AccessKey := "AKIA"; SecretKey := "secret";
                      Region := "eu-west-1" |} |}
      "artifact"%string.
Proof.
  apply (injected_connection_ignores_credentials FakeEC2.newConn
           (FakeEC2.processor 1 FakeEC2.three) _ "artifact"%string FakeEC2.three);
    reflexivity.
Defined.
